(** * Mestre: the electrical sizing engine of [src/services/electricalLogic.ts]

    A shallow embedding of the calculators of [electricalLogic.ts]
    ([calculateElectrical], [calculateMotor], [calculateSolar], [calculateQDC],
    [estimateShortCircuit]) and the properties of its specification.

    JavaScript numbers are IEEE 754 binary64 values.  The program is written
    once over an interface [JSNumber] of the operations it uses, and read at
    two instances:
    - [binary64]: Rocq's primitive floats, bit for bit what the engine
      computes (NaN, the infinities and the rounding of every operation);
    - [exact]: the real numbers, the arithmetic the formulas are meant in,
      used where a statement is about the algebra of a formula. *)

From Stdlib Require Import ZArith QArith Qreals Reals Floats List String Bool Lia Lra.
From Stdlib Require Import Permutation.
Import ListNotations.

Set Implicit Arguments.
#[local] Set Warnings "-inexact-float".

(** ** Numbers *)

Class JSNumber (F : Type) : Type := {
  ofQ   : Q -> F;            (* a decimal literal of the source text *)
  nadd  : F -> F -> F;
  nsub  : F -> F -> F;
  nmul  : F -> F -> F;
  ndiv  : F -> F -> F;
  nsqrt : F -> F;            (* Math.sqrt *)
  nceil : F -> F;            (* Math.ceil *)
  nleb  : F -> F -> bool;    (* a <= b *)
  nltb  : F -> F -> bool;    (* a < b *)
  neqb  : F -> F -> bool;    (* a === b *)
  nNaN  : F
}.

Arguments ofQ {F JSNumber} q%_Q.

Declare Scope js_scope.
Delimit Scope js_scope with js.
Notation "x + y" := (nadd x y) : js_scope.
Notation "x - y" := (nsub x y) : js_scope.
Notation "x * y" := (nmul x y) : js_scope.
Notation "x / y" := (ndiv x y) : js_scope.
Notation "x <=? y" := (nleb x y) : js_scope.
Notation "x <? y" := (nltb x y) : js_scope.
Notation "x >=? y" := (nleb y x) : js_scope.
Notation "x >? y" := (nltb y x) : js_scope.
Notation "x ===? y" := (neqb x y) (at level 70, no associativity) : js_scope.

(** *** binary64 *)

(** An integer of the source text as a double; exact below [2^53]. *)
Definition Z2F (z : Z) : float :=
  match z with
  | Z0 => 0%float
  | Zpos _ => of_uint63 (Uint63.of_Z z)
  | Zneg p => PrimFloat.opp (of_uint63 (Uint63.of_Z (Zpos p)))
  end.

(** A decimal literal [n/d] is read as the double nearest to it: [n] and [d]
    are doubles and the division rounds correctly. *)
Definition Q2F (q : Q) : float := PrimFloat.div (Z2F (Qnum q)) (Z2F (Zpos (Qden q))).

(** [Math.ceil]: the least integer not below [x]; a negative fraction above
    [-1] gives [-0], and NaN, the infinities and the zeros are returned as
    they are. *)
Definition float_ceil (x : float) : float :=
  match Prim2SF x with
  | S754_finite s m e =>
      if (0 <=? e)%Z then x
      else
        let d := (2 ^ (- e))%Z in
        let q := (Zpos m / d)%Z in
        if s then PrimFloat.opp (Z2F q)
        else if (Zpos m mod d =? 0)%Z then Z2F q else Z2F (q + 1)
  | _ => x
  end.

#[export] Instance binary64 : JSNumber float := {|
  ofQ := Q2F;
  nadd := PrimFloat.add;
  nsub := PrimFloat.sub;
  nmul := PrimFloat.mul;
  ndiv := PrimFloat.div;
  nsqrt := PrimFloat.sqrt;
  nceil := float_ceil;
  nleb := PrimFloat.leb;
  nltb := PrimFloat.ltb;
  neqb := PrimFloat.eqb;
  nNaN := nan
|}.

(** *** Exact arithmetic *)

Definition Rleb (x y : R) : bool := if Rle_dec x y then true else false.
Definition Rltb (x y : R) : bool := if Rlt_dec x y then true else false.
Definition Reqb (x y : R) : bool := if Req_dec_T x y then true else false.

(** The reals have no NaN and no infinities: [x / 0] is [0] there, and [nNaN]
    is read as [0].  Statements at this instance are about runs of the
    engine that divide by nothing zero. *)
#[export] Instance exact : JSNumber R := {|
  ofQ := Q2R;
  nadd := Rplus;
  nsub := Rminus;
  nmul := Rmult;
  ndiv := Rdiv;
  nsqrt := R_sqrt.sqrt;
  nceil := fun x => IZR (- Int_part (- x));
  nleb := Rleb;
  nltb := Rltb;
  neqb := Reqb;
  nNaN := 0%R
|}.

(** ** The fragment of JavaScript the engine uses *)

(** A call either returns or throws; a loop that has not finished within its
    fuel is reported as [Diverged]. *)
Inductive exn : Type := TypeError | Diverged.

Inductive completion (A : Type) : Type :=
| Return (a : A)
| Raise (e : exn).
Arguments Return {A} a.
Arguments Raise {A} e.

Definition bind {A B} (c : completion A) (k : A -> completion B) : completion B :=
  match c with
  | Return a => k a
  | Raise e => Raise e
  end.

Notation "x <- c ;; k" := (bind c (fun x => k))
  (at level 61, c at next level, right associativity).

(** [a[i]]: [undefined] out of range; the engine only ever reads a field of
    the element next, which throws a TypeError on [undefined]. *)
Definition array_get {A} (a : list A) (i : Z) : completion A :=
  if (i <? 0)%Z then Raise TypeError
  else match nth_error a (Z.to_nat i) with
       | Some x => Return x
       | None => Raise TypeError
       end.

Section Values.
Context {F : Type} `{JSNumber F}.
Local Open Scope js_scope.

  (** What a property read can give: a number, [undefined], or something that
      is not a number (a function or object inherited from Object.prototype). *)
Inductive value : Type :=
  | Num (x : F)
  | Undefined
  | Object.

  (** A number is falsy when it is [0], [-0] or NaN. *)
Definition truthy (v : value) : bool :=
    match v with
    | Num x => negb (x ===? ofQ 0) && (x ===? x)
    | Undefined => false
    | Object => true
    end.

  (** [a || b] *)
Definition js_or (a b : value) : value := if truthy a then a else b.

  (** ToNumber, as applied by [*]: [undefined], functions and plain objects
      all become NaN. *)
Definition toNumber (v : value) : F :=
    match v with
    | Num x => x
    | Undefined => nNaN
    | Object => nNaN
    end.

  (** The property names every object literal inherits from Object.prototype. *)
Definition object_prototype_keys : list string :=
    [ "constructor"; "hasOwnProperty"; "isPrototypeOf"; "propertyIsEnumerable";
      "toLocaleString"; "toString"; "valueOf"; "__proto__";
      "__defineGetter__"; "__defineSetter__"; "__lookupGetter__"; "__lookupSetter__" ]%string.

Fixpoint assoc (k : string) (o : list (string * F)) : option F :=
    match o with
    | [] => None
    | (k', v) :: o' => if String.eqb k k' then Some v else assoc k o'
    end.

  (** [o[k]] for an object literal [o] with string keys. *)
Definition get_prop (o : list (string * F)) (k : string) : value :=
    match assoc k o with
    | Some v => Num v
    | None => if existsb (String.eqb k) object_prototype_keys then Object else Undefined
    end.

  (** [o[k]] for an object literal [o] whose keys are numeric literals and a
      number [k]: the key is the decimal text of [k], which is the text of a
      key of [o] exactly when [k] is that number, and is never the name of an
      inherited property. *)
Fixpoint get_index (o : list (F * F)) (k : F) : value :=
    match o with
    | [] => Undefined
    | (k', v) :: o' => if k ===? k' then Num v else get_index o' k
    end.
End Values.

Arguments value F : clear implicits.

(** ** Data model *)

(** An element of [CABLE_TABLE].  Objects are compared by reference
    ([Array.prototype.indexOf]); [oid] is the identity of the object. *)
Module CableData.
Record t (F : Type) : Type := mk {
  oid : nat;
  section : F;
  capacity : list (string * F);
  resistance : F                        (* Ohm/km *)
}.
Arguments mk {F}.
End CableData.

Inductive SystemType : Type := monofasico | bifasico | trifasico.
Inductive LoadType : Type := iluminacao | tomadas | motor | alimentador.
Inductive Material : Type := cobre | aluminio.
Inductive Insulation : Type := PVC | EPR.
Inductive BreakerCurve : Type := CurveB | CurveC | CurveD.

Definition SystemType_eqb (a b : SystemType) : bool :=
  match a, b with
  | monofasico, monofasico | bifasico, bifasico | trifasico, trifasico => true
  | _, _ => false
  end.

Definition LoadType_eqb (a b : LoadType) : bool :=
  match a, b with
  | iluminacao, iluminacao | tomadas, tomadas | motor, motor | alimentador, alimentador => true
  | _, _ => false
  end.

Definition Material_eqb (a b : Material) : bool :=
  match a, b with
  | cobre, cobre | aluminio, aluminio => true
  | _, _ => false
  end.

Definition Insulation_eqb (a b : Insulation) : bool :=
  match a, b with
  | PVC, PVC | EPR, EPR => true
  | _, _ => false
  end.

Definition BreakerCurve_eqb (a b : BreakerCurve) : bool :=
  match a, b with
  | CurveB, CurveB | CurveC, CurveC | CurveD, CurveD => true
  | _, _ => false
  end.

Module CalcInput.
Record t (F : Type) : Type := mk {
  systemType : SystemType;
  voltage : F;
  power : F;
  powerFactor : F;
  loadType : LoadType;
  length : F;
  method : string;
  temp : F;
  grouping : F;
  material : Material;
  insulation : Insulation;
  breakerCurve : BreakerCurve;
  breakerIcn : F;
  breakerRating : F
}.
Arguments mk {F}.
End CalcInput.

(** The five trade sizes of [conduitSize], in inches. *)
Inductive ConduitSize : Type :=
| Conduit_3_4        (* 3/4 *)
| Conduit_1          (* 1 *)
| Conduit_1_1_4      (* 1 1/4 *)
| Conduit_1_1_2      (* 1 1/2 *)
| Conduit_2.         (* 2 *)

(** The diagnostic notes, each with the numbers its text is built from (the
    text itself, with its [toFixed] renderings, is not modelled). *)
Inductive Note (F : Type) : Type :=
| NoteVoltageDrop (dVPercent limit : F)      (* Aviso: Queda de tensao ... excede o limite *)
| NoteBreakerAboveIz (breaker Iz : F)        (* Erro: O disjuntor ... maior que a capacidade do cabo *)
| NoteBreakerBelowIb (breaker Ib : F)        (* Erro: O disjuntor ... menor que a corrente de projeto *)
| NoteIcn (Isc breakerIcn : F)               (* Perigo: Corrente de curto-circuito presumida ... *)
| NoteMotorCurveB                            (* Recomendacao: Para motores ... *)
| NoteLightingCurveD                         (* Recomendacao: Para iluminacao ... *)
| NoteSocketCurveB                           (* Observacao Tecnica: Para circuitos de tomadas ... *)
| NoteHighCurrent.                           (* Corrente elevada (>100A) ... *)
Arguments NoteMotorCurveB {F}.
Arguments NoteLightingCurveD {F}.
Arguments NoteSocketCurveB {F}.
Arguments NoteHighCurrent {F}.

(** A line of the bill of materials: what the item text is built from, the
    quantity ([None] for "1 un", [Some m] for "<m>m") and the price. *)
Inductive BomItem (F : Type) : Type :=
| BomPhaseCable (section : F) (material : Material) (insulation : Insulation)
| BomNeutralCable (section : F)
| BomEarthCable (section : F)
| BomBreaker (rating : F) (curve : BreakerCurve) (icn : F)
| BomConduit (size : ConduitSize).

Module BomLine.
Record t (F : Type) : Type := mk {
  item : BomItem F;
  quantity : option F;
  estimatedPrice : F
}.
Arguments mk {F}.
End BomLine.

Module CalcResult.
Record t (F : Type) : Type := mk {
  current : F;
  cableSection : F;
  neutralSection : F;
  earthSection : F;
  conduitSize : ConduitSize;
  breakerRating : F;
  breakerCurve : BreakerCurve;
  breakerIcn : F;
  voltageDrop : F;
  voltageDropPercent : F;
  shortCircuitCurrent : F;
  isConform : bool;
  isIcnConform : bool;
  izCorrected : F;
  notes : list (Note F);
  bom : list (BomLine.t F)
}.
Arguments mk {F}.
End CalcResult.

Module MotorCalcInput.
Inductive StartingMethod : Type := direta | estrela_triangulo | soft_starter.
Record t (F : Type) : Type := mk {
  powerCV : F;
  voltage : F;
  efficiency : F;
  powerFactor : F;
  startingMethod : StartingMethod
}.
Arguments mk {F}.
End MotorCalcInput.

Module MotorCalcResult.
Record t (F : Type) : Type := mk {
  nominalCurrent : F;
  startingCurrent : F;
  breaker : F;
  relay : F;
  contactor : string
}.
Arguments mk {F}.
End MotorCalcResult.

Module Circuit.
Record t (F : Type) : Type := mk {
  id : F;
  current : F;
  type : string
}.
Arguments mk {F}.
End Circuit.

Module PhaseLoad.
Record t (F : Type) : Type := mk {
  phase : string;
  current : F
}.
Arguments mk {F}.
End PhaseLoad.

(** [circuits] is a reference to an array of the heap, shared with the caller. *)
Module QDCCalcInput.
Record t : Type := mk {
  circuits : nat
  }.
End QDCCalcInput.

Module QDCCalcResult.
Record t (F : Type) : Type := mk {
  totalCurrent : F;
  mainBreaker : F;
  drRating : F;
  dpsRating : string;
  busbarCurrent : F;
  phaseBalance : list (PhaseLoad.t F)
}.
Arguments mk {F}.
End QDCCalcResult.

Module SolarInput.
Record t (F : Type) : Type := mk {
  monthlyConsumption : F;
  solarIrradiation : F;               (* kWh/m2/day *)
  panelPower : F                      (* Wp *)
}.
Arguments mk {F}.
End SolarInput.

Module SolarResult.
Record t (F : Type) : Type := mk {
  estimatedPanels : F;
  systemPower : F;
  monthlyGeneration : F;
  estimatedArea : F
}.
Arguments mk {F}.
End SolarResult.

(** ** Reference tables *)

Section Tables.
Context {F : Type} `{JSNumber F}.

Definition cableRow (i : nat) (s b1 b2 c r : Q) : CableData.t F :=
    CableData.mk i (ofQ s) [("B1"%string, ofQ b1); ("B2"%string, ofQ b2); ("C"%string, ofQ c)] (ofQ r).

Definition CABLE_TABLE : list (CableData.t F) :=
    [ cableRow 0 1.5 17.5 16.5 19.5 12.1;
      cableRow 1 2.5 24 23 27 7.41;
      cableRow 2 4 32 30 36 4.61;
      cableRow 3 6 41 38 46 3.08;
      cableRow 4 10 57 52 63 1.83;
      cableRow 5 16 76 69 85 1.15;
      cableRow 6 25 101 90 112 0.727;
      cableRow 7 35 125 111 138 0.524;
      cableRow 8 50 151 133 168 0.387;
      cableRow 9 70 192 168 213 0.268;
      cableRow 10 95 232 201 258 0.193;
      cableRow 11 120 269 232 299 0.153 ].

Definition TEMPERATURE_FACTORS : list (F * F) :=
    [ (ofQ 10, ofQ 1.22); (ofQ 15, ofQ 1.17); (ofQ 20, ofQ 1.12);
      (ofQ 25, ofQ 1.06); (ofQ 30, ofQ 1.00); (ofQ 35, ofQ 0.94);
      (ofQ 40, ofQ 0.87); (ofQ 45, ofQ 0.79); (ofQ 50, ofQ 0.71) ].

Definition GROUPING_FACTORS : list (F * F) :=
    [ (ofQ 1, ofQ 1.00); (ofQ 2, ofQ 0.80); (ofQ 3, ofQ 0.70);
      (ofQ 4, ofQ 0.65); (ofQ 5, ofQ 0.60); (ofQ 6, ofQ 0.57);
      (ofQ 7, ofQ 0.54); (ofQ 8, ofQ 0.52); (ofQ 9, ofQ 0.50) ].

Definition BREAKER_RATINGS : list F :=
    [ ofQ 6; ofQ 10; ofQ 13; ofQ 16; ofQ 20; ofQ 25; ofQ 32;
      ofQ 40; ofQ 50; ofQ 63; ofQ 70; ofQ 80; ofQ 100; ofQ 125 ].

  (** [a.indexOf(x)] on an array of objects: the position of the object
      itself, [-1] when it is not in the array. *)
Fixpoint indexOf_from (a : list (CableData.t F)) (x : CableData.t F) (i : Z) : Z :=
    match a with
    | [] => (-1)%Z
    | y :: a' => if Nat.eqb (CableData.oid y) (CableData.oid x) then i
                 else indexOf_from a' x (i + 1)%Z
    end.

Definition indexOf (a : list (CableData.t F)) (x : CableData.t F) : Z := indexOf_from a x 0%Z.
End Tables.

(** The pair [{ dV, dVPercent }] returned by [calculateVD]. *)
Module VD.
Record t (F : Type) : Type := mk {
  dV : F;
  dVPercent : F
}.
Arguments mk {F}.
End VD.

(** ** The calculators *)

Section Engine.
Context {F : Type} `{JSNumber F}.
Local Open Scope js_scope.

(** [CABLE_TABLE.find(c => c.section === section)?.resistance || 1] *)
Definition resistanceOrOne (section : F) : F :=
  let found :=
    match find (fun c => CableData.section c ===? section) CABLE_TABLE with
    | Some c => Num (CableData.resistance c)      (* ?.resistance *)
    | None => Undefined
    end in
  toNumber (js_or found (Num (ofQ 1))).

(** [estimateShortCircuit(voltage, length, section)] *)
Definition estimateShortCircuit (voltage length section : F) : F :=
  let cableResistance := resistanceOrOne section * (length / ofQ 1000) in
  voltage / cableResistance.

(** *** [calculateElectrical]: the local bindings, as functions of the input *)

(** 1. Calculate Current (Ib) *)
Definition Ib (input : CalcInput.t F) : F :=
  let 'CalcInput.mk systemType voltage power powerFactor _ _ _ _ _ _ _ _ _ _ := input in
  if SystemType_eqb systemType trifasico
  then power / (nsqrt (ofQ 3) * voltage * powerFactor)
  else power / (voltage * powerFactor).

(** 2. Correction Factors *)
Definition ft (input : CalcInput.t F) : F :=
  toNumber (js_or (get_index TEMPERATURE_FACTORS (CalcInput.temp input)) (Num (ofQ 1.0))).

Definition fg (input : CalcInput.t F) : F :=
  toNumber (js_or (get_index GROUPING_FACTORS (CalcInput.grouping input)) (Num (ofQ 1.0))).

Definition fInsulation (input : CalcInput.t F) : F :=
  if Insulation_eqb (CalcInput.insulation input) EPR then ofQ 1.25 else ofQ 1.0.

Definition fMaterial (input : CalcInput.t F) : F :=
  if Material_eqb (CalcInput.material input) aluminio then ofQ 0.78 else ofQ 1.0.

Definition fTotal (input : CalcInput.t F) : F :=
  ft input * fg input * fInsulation input * fMaterial input.

(** 3. Find Cable Section *)
Definition getIz (input : CalcInput.t F) (cable : CableData.t F) : F :=
  toNumber (js_or (get_prop (CableData.capacity cable) (CalcInput.method input))
                  (get_prop (CableData.capacity cable) "B1"))
  * fTotal input.

Definition findCable (input : CalcInput.t F) (minIz : F) : completion (CableData.t F) :=
  match find (fun cable => getIz input cable >=? minIz) CABLE_TABLE with
  | Some cable => Return cable
  | None => array_get CABLE_TABLE (Z.of_nat (List.length CABLE_TABLE) - 1)
  end.

(** 4. Voltage Drop Calculation *)
Definition calculateVD (input : CalcInput.t F) (cable : CableData.t F) : VD.t F :=
  let R := CableData.resistance cable in
  let R := if Material_eqb (CalcInput.material input) aluminio then R * ofQ 1.6 else R in
  let dV :=
    if SystemType_eqb (CalcInput.systemType input) trifasico
    then (nsqrt (ofQ 3) * CalcInput.length input * Ib input * R) / ofQ 1000
    else (ofQ 2 * CalcInput.length input * Ib input * R) / ofQ 1000 in
  let dVPercent := (dV / CalcInput.voltage input) * ofQ 100 in
  VD.mk dV dVPercent.

(** 5. Voltage Drop Limits *)
Definition limit (input : CalcInput.t F) : F :=
  if LoadType_eqb (CalcInput.loadType input) alimentador then ofQ 7 else ofQ 4.

(** The [while] loop that moves to the next section of the table: its state
    is [selectedCable], [vd] and [Iz]. *)
Fixpoint upgradeCable (fuel : nat) (input : CalcInput.t F)
    (selectedCable : CableData.t F) (vd : VD.t F) (Iz : F)
  : completion (CableData.t F * VD.t F * F) :=
  if (VD.dVPercent vd >? limit input)
     && (indexOf CABLE_TABLE selectedCable <? Z.of_nat (List.length CABLE_TABLE) - 1)%Z
  then
    match fuel with
    | O => Raise Diverged
    | S fuel' =>
        selectedCable' <- array_get CABLE_TABLE (indexOf CABLE_TABLE selectedCable + 1) ;;
        upgradeCable fuel' input selectedCable'
          (calculateVD input selectedCable') (getIz input selectedCable')
    end
  else Return (selectedCable, vd, Iz).

(** 6. Neutral and Earth Sizing *)
Definition neutralSectionOf (systemType : SystemType) (section : F) : F :=
  if SystemType_eqb systemType trifasico && (section >? ofQ 25)
  then
    let neutralSection := section / ofQ 2 in
    if neutralSection <? ofQ 16 then ofQ 16 else neutralSection
  else section.

Definition earthSectionOf (section : F) : F :=
  if (section >? ofQ 16) && (section <=? ofQ 35) then ofQ 16
  else if section >? ofQ 35 then section / ofQ 2
  else section.

(** 7. Conduit Sizing *)
Definition totalAreaOf (systemType : SystemType) (section neutralSection earthSection : F) : F :=
  (section * (if SystemType_eqb systemType trifasico then ofQ 3 else ofQ 2))
  + neutralSection + earthSection.

Definition conduitSizeOf (totalArea : F) : ConduitSize :=
  let conduitSize := Conduit_3_4 in
  let conduitSize := if totalArea >? ofQ 150 then Conduit_1 else conduitSize in
  let conduitSize := if totalArea >? ofQ 300 then Conduit_1_1_4 else conduitSize in
  let conduitSize := if totalArea >? ofQ 500 then Conduit_1_1_2 else conduitSize in
  let conduitSize := if totalArea >? ofQ 800 then Conduit_2 else conduitSize in
  conduitSize.

(** [notes.push(...)] under a condition. *)
Definition push_if {A} (b : bool) (x : A) (l : list A) : list A :=
  if b then l ++ [x] else l.

(** 9. Breaker Curve Appropriateness Check *)
Definition curveNote (loadType : LoadType) (breakerCurve : BreakerCurve) (notes : list (Note F))
  : list (Note F) :=
  if LoadType_eqb loadType motor && BreakerCurve_eqb breakerCurve CurveB
  then notes ++ [NoteMotorCurveB]
  else if LoadType_eqb loadType iluminacao && BreakerCurve_eqb breakerCurve CurveD
  then notes ++ [NoteLightingCurveD]
  else if LoadType_eqb loadType tomadas && BreakerCurve_eqb breakerCurve CurveB
  then notes ++ [NoteSocketCurveB]
  else notes.

(** Steps 6 to 10 of [calculateElectrical]: everything after the loop, from
    its final [selectedCable], [vd] and [Iz]. *)
Definition sizeRest (input : CalcInput.t F) (selectedCable : CableData.t F)
    (vd : VD.t F) (Iz : F) : CalcResult.t F :=
  let 'CalcInput.mk systemType voltage power powerFactor loadType length method temp
         grouping material insulation breakerCurve breakerIcn breakerRating := input in
  let Ib := Ib input in
  let breaker := breakerRating in
  let limit := limit input in
  let section := CableData.section selectedCable in
  let neutralSection := neutralSectionOf systemType section in
  let earthSection := earthSectionOf section in
  let totalArea := totalAreaOf systemType section neutralSection earthSection in
  let conduitSize := conduitSizeOf totalArea in
  (* 8. Short Circuit Calculation *)
  let Isc := estimateShortCircuit voltage length section in
  let isIcnConform := (breakerIcn * ofQ 1000) >=? Isc in
  let isConform := (VD.dVPercent vd <=? limit) && (breaker <=? Iz) && isIcnConform in
  let notes := [] in
  let notes := push_if (VD.dVPercent vd >? limit) (NoteVoltageDrop (VD.dVPercent vd) limit) notes in
  let notes := push_if (breaker >? Iz) (NoteBreakerAboveIz breaker Iz) notes in
  let notes := push_if (breaker <? Ib) (NoteBreakerBelowIb breaker Ib) notes in
  let notes := push_if (negb isIcnConform) (NoteIcn Isc breakerIcn) notes in
  let notes := curveNote loadType breakerCurve notes in
  let notes := push_if (Ib >? ofQ 100) NoteHighCurrent notes in
  (* 10. BOM Generation *)
  let phases := if SystemType_eqb systemType trifasico then ofQ 3 else ofQ 2 in
  let bom :=
    [ BomLine.mk (BomPhaseCable section material insulation)
        (Some (length * phases)) (length * section * ofQ 0.5);
      BomLine.mk (BomNeutralCable neutralSection) (Some length) (length * neutralSection * ofQ 0.45);
      BomLine.mk (BomEarthCable earthSection) (Some length) (length * earthSection * ofQ 0.45);
      BomLine.mk (BomBreaker breaker breakerCurve breakerIcn) None (ofQ 25);
      BomLine.mk (BomConduit F conduitSize) (Some length) (length * ofQ 5) ] in
  CalcResult.mk Ib section neutralSection earthSection conduitSize breaker breakerCurve
    breakerIcn (VD.dV vd) (VD.dVPercent vd) Isc isConform isIcnConform Iz notes bom.

(** [calculateElectrical(input)] *)
Definition calculateElectrical (input : CalcInput.t F) : completion (CalcResult.t F) :=
  let breaker := CalcInput.breakerRating input in
  selectedCable <- findCable input breaker ;;
  let Iz := getIz input selectedCable in
  let vd := calculateVD input selectedCable in
  st <- upgradeCable (List.length (@CABLE_TABLE F _)) input selectedCable vd Iz ;;
  let '(selectedCable, vd, Iz) := st in
  Return (sizeRest input selectedCable vd Iz).

End Engine.

Section Siblings.
Context {F : Type} `{JSNumber F}.
Local Open Scope js_scope.

(** [BREAKER_RATINGS.find(r => r >= x) || 125] *)
Definition roundUpToRating (x : F) : F :=
  let found :=
    match find (fun r => r >=? x) BREAKER_RATINGS with
    | Some r => Num r
    | None => Undefined
    end in
  toNumber (js_or found (Num (ofQ 125))).

(** [calculateMotor(input)] *)
Definition calculateMotor (input : MotorCalcInput.t F) : MotorCalcResult.t F :=
  let 'MotorCalcInput.mk powerCV voltage efficiency powerFactor startingMethod := input in
  let powerW := powerCV * ofQ 735.5 in
  let In := powerW / (nsqrt (ofQ 3) * voltage * (efficiency / ofQ 100) * powerFactor) in
  let Ip := In * ofQ 7 in
  let Ip := match startingMethod with MotorCalcInput.estrela_triangulo => In * ofQ 2.3 | _ => Ip end in
  let Ip := match startingMethod with MotorCalcInput.soft_starter => In * ofQ 3 | _ => Ip end in
  let breaker := roundUpToRating (In * ofQ 1.25) in
  let relay := In * ofQ 1.1 in
  MotorCalcResult.mk In Ip breaker relay
    (if In <? ofQ 9 then "CWM9"%string
     else if In <? ofQ 12 then "CWM12"%string
     else if In <? ofQ 18 then "CWM18"%string
     else "CWM25"%string).

(** [calculateSolar(input)] *)
Definition calculateSolar (input : SolarInput.t F) : SolarResult.t F :=
  let 'SolarInput.mk monthlyConsumption solarIrradiation panelPower := input in
  let dailyConsumption := monthlyConsumption / ofQ 30 in
  let systemPowerKW := (dailyConsumption / solarIrradiation) / ofQ 0.8 in
  let panels := nceil ((systemPowerKW * ofQ 1000) / panelPower) in
  SolarResult.mk panels systemPowerKW
    (systemPowerKW * solarIrradiation * ofQ 30 * ofQ 0.8)
    (panels * ofQ 2).

(** *** [calculateQDC]: the caller's array lives in a heap *)

(** The arrays of circuits, by address. *)
Definition Heap : Type := list (list (Circuit.t F)).

Definition heap_get (h : Heap) (a : nat) : completion (list (Circuit.t F)) :=
  match nth_error h a with
  | Some arr => Return arr
  | None => Raise TypeError
  end.

Fixpoint heap_set (h : Heap) (a : nat) (arr : list (Circuit.t F)) : Heap :=
  match h, a with
  | [], _ => []
  | _ :: h', O => arr :: h'
  | x :: h', S a' => x :: heap_set h' a' arr
  end.

(** [Array.prototype.sort(comparefn)] is stable and sorts the array in place.
    An element goes after another when [comparefn] of the two is positive (a
    NaN counts as [0]).  The algorithm is the engine's own; for a comparator
    that is a consistent order every stable sort gives this result.  For one
    that is not (a NaN current among the circuits) the order the engine leaves
    is its own, and nothing below is stated of it. *)
Fixpoint sort_insert {A} (comparefn : A -> A -> F) (x : A) (l : list A) : list A :=
  match l with
  | [] => [x]
  | y :: l' => if comparefn x y >? ofQ 0 then y :: sort_insert comparefn x l' else x :: y :: l'
  end.

Fixpoint Array_sort {A} (comparefn : A -> A -> F) (l : list A) : list A :=
  match l with
  | [] => []
  | x :: l' => sort_insert comparefn x (Array_sort comparefn l')
  end.

(** [phases[k].current += x] *)
Fixpoint addToPhase (phases : list (PhaseLoad.t F)) (k : nat) (x : F) : list (PhaseLoad.t F) :=
  match phases, k with
  | [], _ => []
  | p :: ps, O => PhaseLoad.mk (PhaseLoad.phase p) (PhaseLoad.current p + x) :: ps
  | p :: ps, S k' => p :: addToPhase ps k' x
  end.

(** [arr.forEach((c, i) => { phases[i % 3].current += c.current })], from index [i]. *)
Fixpoint distribute (arr : list (Circuit.t F)) (i : nat) (phases : list (PhaseLoad.t F))
  : list (PhaseLoad.t F) :=
  match arr with
  | [] => phases
  | c :: arr' => distribute arr' (S i) (addToPhase phases (i mod 3) (Circuit.current c))
  end.

(** [calculateQDC(input)]: the result, and the heap the call leaves. *)
Definition calculateQDC (input : QDCCalcInput.t) (h : Heap)
  : completion (QDCCalcResult.t F * Heap) :=
  circuits <- heap_get h (QDCCalcInput.circuits input) ;;
  let totalCurrent := fold_left (fun acc c => acc + Circuit.current c) circuits (ofQ 0) in
  let mainBreaker := roundUpToRating (totalCurrent * ofQ 0.8) in
  let phases :=
    [ PhaseLoad.mk "R"%string (ofQ 0); PhaseLoad.mk "S"%string (ofQ 0);
      PhaseLoad.mk "T"%string (ofQ 0) ] in
  (* input.circuits.sort(...): sorts the caller's array and returns it *)
  let sorted := Array_sort (fun a b => Circuit.current b - Circuit.current a) circuits in
  let h := heap_set h (QDCCalcInput.circuits input) sorted in
  let phases := distribute sorted 0 phases in
  Return
    (QDCCalcResult.mk totalCurrent mainBreaker mainBreaker "20kA / 275V"%string
       (mainBreaker * ofQ 1.25) phases,
     h).

End Siblings.

Unset Implicit Arguments.

(** ** Vocabulary of the statements *)

Section Vocabulary.
Context {F : Type} `{JSNumber F}.
Local Open Scope js_scope.

(** The state the loop of [calculateElectrical] ends in when it starts from
    position [j]: the cable at a position [k] from [j] on, such that every
    cable from [j] to before [k] has its drop above the limit, and the cable at
    [k] has its drop within the limit unless it is the last of the table. *)
Definition settled (input : CalcInput.t F) (j k : nat) (c : CableData.t F) : Prop :=
  (j <= k)%nat
  /\ nth_error CABLE_TABLE k = Some c
  /\ (forall i ci, (j <= i < k)%nat -> nth_error CABLE_TABLE i = Some ci ->
        (VD.dVPercent (calculateVD input ci) >? limit input) = true)
  /\ ((VD.dVPercent (calculateVD input c) >? limit input) = false \/ k = 11%nat).

(** What the scan of [findCable] returns: the first cable of the table whose
    corrected ampacity reaches [minIz], or the last cable when none does. *)
Definition firstFit (input : CalcInput.t F) (minIz : F) (j : nat) (c : CableData.t F) : Prop :=
  nth_error CABLE_TABLE j = Some c
  /\ ((getIz input c >=? minIz) = true
      /\ (forall i c', (i < j)%nat -> nth_error CABLE_TABLE i = Some c' ->
                       (getIz input c' >=? minIz) = false)
      \/ j = 11%nat
         /\ forall c', In c' CABLE_TABLE -> (getIz input c' >=? minIz) = false).

(** [k in o] is false: [k] is neither a key of the object literal [o] nor a
    name it inherits. *)
Definition absent (o : list (string * F)) (k : string) : Prop :=
  assoc k o = None /\ existsb (String.eqb k) object_prototype_keys = false.

(** The capacity [getIz] reads for a method: [capacity[method] || capacity['B1']]. *)
Definition capacityFor (method : string) (cable : CableData.t F) : F :=
  toNumber (js_or (get_prop (CableData.capacity cable) method)
                  (get_prop (CableData.capacity cable) "B1")).

(** The input with another circuit length and everything else as it is. *)
Definition withLength (input : CalcInput.t F) (length' : F) : CalcInput.t F :=
  let 'CalcInput.mk systemType voltage power powerFactor loadType _ method temp
         grouping material insulation breakerCurve breakerIcn breakerRating := input in
  CalcInput.mk systemType voltage power powerFactor loadType length' method temp
    grouping material insulation breakerCurve breakerIcn breakerRating.

End Vocabulary.


(** Every element is [<=] all the later ones. *)
Fixpoint ascending (l : list float) : bool :=
  match l with
  | [] => true
  | x :: l' => forallb (fun y => nleb x y) l' && ascending l'
  end.

(** ** Scenarios *)

(** Scenario A, the lighting circuit (the form's initial state in [App.tsx]). *)
Definition scenarioA : CalcInput.t float :=
  CalcInput.mk monofasico (ofQ 127) (ofQ 1200) (ofQ 1.0) iluminacao (ofQ 20) "B1" (ofQ 30)
    (ofQ 1) cobre PVC CurveC (ofQ 3.0) (ofQ 16).

(** Scenario A with a breaker of 0.5 kA interrupting capacity. *)
Definition scenarioA_lowIcn : CalcInput.t float :=
  CalcInput.mk monofasico (ofQ 127) (ofQ 1200) (ofQ 1.0) iluminacao (ofQ 20) "B1" (ofQ 30)
    (ofQ 1) cobre PVC CurveC (ofQ 0.5) (ofQ 16).

(** A single-phase circuit at 45 degrees behind a 100 A breaker of 20 kA: the
    50 mm2 cable is selected. *)
Definition singlePhase100A : CalcInput.t float :=
  CalcInput.mk monofasico (ofQ 127) (ofQ 1200) (ofQ 1.0) iluminacao (ofQ 20) "B1" (ofQ 45)
    (ofQ 1) cobre PVC CurveC (ofQ 20) (ofQ 100).

(** Installation method A1 (offered by the form, not in the capacity maps),
    33 degrees and 12 grouped circuits (not in the factor tables). *)
Definition offTableInput : CalcInput.t float :=
  CalcInput.mk monofasico (ofQ 127) (ofQ 1200) (ofQ 1.0) iluminacao (ofQ 20) "A1" (ofQ 33)
    (ofQ 12) cobre PVC CurveC (ofQ 3.0) (ofQ 16).

(** Scenario B, the 5 CV motor started direct-on-line. *)
Definition scenarioB : MotorCalcInput.t float :=
  MotorCalcInput.mk (ofQ 5) (ofQ 380) (ofQ 85) (ofQ 0.8) MotorCalcInput.direta.

(** A 100 CV motor on the same supply. *)
Definition motor100cv : MotorCalcInput.t float :=
  MotorCalcInput.mk (ofQ 100) (ofQ 380) (ofQ 85) (ofQ 0.8) MotorCalcInput.direta.

(** A photovoltaic system for 500 kWh a month at 5.2 kWh/m2/day, 550 Wp panels. *)
Definition solar500 : SolarInput.t float :=
  SolarInput.mk (ofQ 500) (ofQ 5.2) (ofQ 550).

(** The same system in exact arithmetic. *)
Definition solar500_exact : SolarInput.t R :=
  SolarInput.mk (ofQ 500) (ofQ 5.2) (ofQ 550).

(** Scenario C, the panel of the form's initial state: circuits of 20, 15 and 32 A. *)
Definition circuit20 : Circuit.t float := Circuit.mk (ofQ 1) (ofQ 20) "TUG".
Definition circuit15 : Circuit.t float := Circuit.mk (ofQ 2) (ofQ 15) "Iluminacao".
Definition circuit32 : Circuit.t float := Circuit.mk (ofQ 3) (ofQ 32) "Chuveiro".
Definition scenarioC_heap : Heap := [[circuit20; circuit15; circuit32]].
Definition scenarioC : QDCCalcInput.t := QDCCalcInput.mk 0.

From Stdlib Require Import Sorted.

(** ** More of the code: the callers of the engine in [App.tsx] *)

Section Callers.
Context {F : Type} `{JSNumber F}.
Local Open Scope js_scope.


(** The status light of a circuit in the panel form:
    [suggestedBreaker = BREAKER_RATINGS.find(r => r >= c.current) || 125],
    [loadRatio = c.current / suggestedBreaker], [isSafe = loadRatio <= 0.8]. *)
Definition isSafe (c : Circuit.t F) : bool :=
  let suggestedBreaker := roundUpToRating (Circuit.current c) in
  let loadRatio := Circuit.current c / suggestedBreaker in
  loadRatio <=? ofQ 0.8.

End Callers.

(** ** More vocabulary *)

(** The kinds of diagnostic notes. *)
Definition isVoltageDropNote {F} (n : Note F) : bool :=
  match n with NoteVoltageDrop _ _ => true | _ => false end.

Definition isBreakerAboveIzNote {F} (n : Note F) : bool :=
  match n with NoteBreakerAboveIz _ _ => true | _ => false end.

Definition isBreakerBelowIbNote {F} (n : Note F) : bool :=
  match n with NoteBreakerBelowIb _ _ => true | _ => false end.

Definition isIcnNote {F} (n : Note F) : bool :=
  match n with NoteIcn _ _ => true | _ => false end.

Definition isMotorCurveBNote {F} (n : Note F) : bool :=
  match n with NoteMotorCurveB => true | _ => false end.

Definition isLightingCurveDNote {F} (n : Note F) : bool :=
  match n with NoteLightingCurveD => true | _ => false end.

Definition isSocketCurveBNote {F} (n : Note F) : bool :=
  match n with NoteSocketCurveB => true | _ => false end.

Definition isHighCurrentNote {F} (n : Note F) : bool :=
  match n with NoteHighCurrent => true | _ => false end.

(** The input with another proposed breaker rating and everything else as it is. *)
Definition withBreakerRating {F} (input : CalcInput.t F) (breakerRating' : F) : CalcInput.t F :=
  let 'CalcInput.mk systemType voltage power powerFactor loadType length method temp
         grouping material insulation breakerCurve breakerIcn _ := input in
  CalcInput.mk systemType voltage power powerFactor loadType length method temp
    grouping material insulation breakerCurve breakerIcn breakerRating'.





(** A proposed breaker of 1000 A: no cable of the table carries it. *)
Definition breaker1000A : CalcInput.t float :=
  CalcInput.mk monofasico (ofQ 127) (ofQ 1200) (ofQ 1.0) iluminacao (ofQ 20) "B1" (ofQ 30)
    (ofQ 1) cobre PVC CurveC (ofQ 3.0) (ofQ 1000).

(** Scenario A with a circuit of zero length. *)
Definition scenarioA_zeroLength : CalcInput.t float :=
  CalcInput.mk monofasico (ofQ 127) (ofQ 1200) (ofQ 1.0) iluminacao (ofQ 0) "B1" (ofQ 30)
    (ofQ 1) cobre PVC CurveC (ofQ 3.0) (ofQ 16).

(** The photovoltaic system of Scenario 500 under no sun at all. *)
Definition solarNoSun : SolarInput.t float :=
  SolarInput.mk (ofQ 500) (ofQ 0) (ofQ 550).


(** A panel with circuits of 0.1, 0.2 and 0.3 A. *)
Definition smallCircuits : Heap :=
  [[ Circuit.mk (ofQ 1) (ofQ 0.1) "a"; Circuit.mk (ofQ 2) (ofQ 0.2) "b";
     Circuit.mk (ofQ 3) (ofQ 0.3) "c" ] : list (Circuit.t float)].

(** Scenario B in exact arithmetic. *)
Definition scenarioB_exact : MotorCalcInput.t R :=
  MotorCalcInput.mk (ofQ 5) (ofQ 380) (ofQ 85) (ofQ 0.8) MotorCalcInput.direta.

(** A circuit of 110 A in the panel form. *)
Definition circuit110 : Circuit.t R := Circuit.mk (ofQ 4) (ofQ 110) "Forno".

(** The input with another installation method and everything else as it is. *)
Definition withMethod {F} (input : CalcInput.t F) (method' : string) : CalcInput.t F :=
  let 'CalcInput.mk systemType voltage power powerFactor loadType length _ temp
         grouping material insulation breakerCurve breakerIcn breakerRating := input in
  CalcInput.mk systemType voltage power powerFactor loadType length method' temp
    grouping material insulation breakerCurve breakerIcn breakerRating.

(** A double that is positive and finite. *)
Definition positiveFinite (x : float) : bool := nltb (ofQ 0) x && nltb x infinity.

(** Scenario A with the installation method ['toString'], a name every
    object inherits from Object.prototype. *)
Definition scenarioA_toString : CalcInput.t float :=
  CalcInput.mk monofasico (ofQ 127) (ofQ 1200) (ofQ 1.0) iluminacao (ofQ 20) "toString"
    (ofQ 30) (ofQ 1) cobre PVC CurveC (ofQ 3.0) (ofQ 16).

(** Scenario A with a circuit of length [-0]. *)
Definition scenarioA_negZeroLength : CalcInput.t float :=
  CalcInput.mk monofasico (ofQ 127) (ofQ 1200) (ofQ 1.0) iluminacao neg_zero "B1" (ofQ 30)
    (ofQ 1) cobre PVC CurveC (ofQ 3.0) (ofQ 16).

(** The photovoltaic system of Scenario 500 under an irradiation of [-0]. *)
Definition solarNoSun_negZero : SolarInput.t float :=
  SolarInput.mk (ofQ 500) neg_zero (ofQ 550).

(** ** Rounding in binary64: the vocabulary of its monotonicity

    [SFmul] and [SFdiv] of the core library round a fraction of integers at
    an exponent with [binary_round_aux].  The definitions below name what
    that function computes: the fraction, its location, its rounding to the
    nearest even integer, and its value as a real number. *)

Section RoundingVocabulary.
Local Open Scope Z_scope.

(** The location of [a/b] between the integers around it. *)
Definition loc_of (a b : Z) : location :=
  if a mod b =? 0 then loc_Exact else loc_Inexact (2 * (a mod b) ?= b).

(** [a/b] rounded to the nearest integer, ties to even. *)
Definition rne (a b : Z) : Z :=
  match 2 * (a mod b) ?= b with
  | Lt => a / b
  | Eq => if Z.even (a / b) then a / b else a / b + 1
  | Gt => a / b + 1
  end.

(** The fraction [a/b] as a shift record: its integer part and the two bits
    that locate it. *)
Definition rec_of (a b : Z) : shr_record := shr_record_of_loc (a / b) (loc_of a b).

(** The number of places [binary_round_aux] first shifts the fraction [a/b]
    at the exponent [e] to the right. *)
Definition shift_of (a b e : Z) : Z := fexp prec emax (Zdigits2 (a / b) + e) - e.

(** The result of a rounding, from its sign, mantissa and exponent. *)
Definition SFmake (s : bool) (m e : Z) : spec_float :=
  match m with
  | Z0 => S754_zero s
  | Zpos p => if e <=? emax - prec then S754_finite s p e else S754_infinity s
  | Zneg _ => S754_nan
  end.

(** A mantissa rounded up to [2^53] is written on 53 bits again. *)
Definition SFrenorm (s : bool) (m e : Z) : spec_float :=
  if m =? 2 ^ 53 then SFmake s (2 ^ 52) (e + 1) else SFmake s m e.

(** The powers of two. *)
Definition bpow (e : Z) : R := powerRZ 2 e.

(** The value of the fraction [a/b] at the exponent [e]. *)
Definition fvalue (a b e : Z) : R := (IZR a / IZR b * bpow e)%R.

(** A fraction at an exponent, as the first shift of [binary_round_aux]
    leaves it: below [2^53], and at least [2^52] above the least exponent. *)
Definition shifted (a b e : Z) : Prop :=
  0 <= a /\ 0 < b /\ -1074 <= e /\ a < 2 ^ 53 * b /\ (-1074 < e -> 2 ^ 52 * b <= a).

(** The rounding of the fraction [a/b] at the exponent [e], with a sign. *)
Definition round_of (s : bool) (t : Z * Z * Z) : spec_float :=
  let '(a, b, e) := t in binary_round_aux prec emax s (a / b) e (loc_of a b).

(** An operation that rounds a fraction computed from a finite operand and
    returns the zeros, the infinities and NaN as they are. *)
Definition scaled (T : positive -> Z -> Z * Z * Z) (x : spec_float) : spec_float :=
  match x with
  | S754_finite s m e => round_of s (T m e)
  | _ => x
  end.

(** [T] yields fractions that [binary_round_aux] shifts to the right, of
    value [kappa] times the operand. *)
Definition scales (kappa : R) (T : positive -> Z -> Z * Z * Z) : Prop :=
  forall m e, bounded prec emax m e = true ->
    let '(a, b, e') := T m e in
    0 <= a /\ 0 < b /\ 0 <= shift_of a b e'
    /\ fvalue a b e' = (kappa * (IZR (Z.pos m) * bpow e))%R.

(** The fraction [SFmul] rounds: the product of the mantissas. *)
Definition mul_fraction (mc : positive) (ec : Z) (m : positive) (e : Z) : Z * Z * Z :=
  (Z.pos (mc * m), 1, ec + e).

(** The fraction [SFdiv] rounds: the quotient of the mantissas, the dividend
    shifted to the left as [SFdiv_core_binary] does. *)
Definition div_fraction (mv : positive) (ev : Z) (m : positive) (e : Z) : Z * Z * Z :=
  let e' := Z.min (fexp prec emax (Zdigits2 (Z.pos m) + e - (Zdigits2 (Z.pos mv) + ev)))
                  (e - ev) in
  (Z.pos m * 2 ^ (e - ev - e'), Z.pos mv, e').

End RoundingVocabulary.

(** * Properties *)

(** ** The selection loop of [calculateElectrical] *)

Section Loop.
Context {F : Type} `{JSNumber F}.
Local Open Scope js_scope.

Lemma CABLE_TABLE_length : List.length (@CABLE_TABLE F _) = 12%nat.
Proof. reflexivity. Qed.

(** The objects of the table are distinct: [indexOf] finds each at its position. *)
Lemma indexOf_nth (j : nat) (c : CableData.t F) :
  nth_error CABLE_TABLE j = Some c -> indexOf CABLE_TABLE c = Z.of_nat j.
Proof.
  do 12 (destruct j as [|j]; [intros [= <-]; reflexivity|]).
  destruct j; discriminate.
Qed.

(** Reads within the table do not throw. *)
Lemma array_get_nth (j : nat) : (j < 12)%nat ->
  exists c : CableData.t F, nth_error CABLE_TABLE j = Some c
                       /\ array_get CABLE_TABLE (Z.of_nat j) = Return c.
Proof.
  intros Hj. unfold array_get.
  destruct (Z.ltb_spec (Z.of_nat j) 0); [lia|].
  rewrite Nat2Z.id.
  destruct (nth_error CABLE_TABLE j) eqn:E.
  - eauto.
  - apply nth_error_None in E. rewrite CABLE_TABLE_length in E. lia.
Qed.

Lemma nth_CABLE_TABLE_lt (j : nat) (c : CableData.t F) :
  nth_error CABLE_TABLE j = Some c -> (j < 12)%nat.
Proof.
  intros Hj. rewrite <- CABLE_TABLE_length. apply nth_error_Some. rewrite Hj. discriminate.
Qed.

(** From position [j], fuel for the [11 - j] cables that remain is enough: the
    loop returns, in a settled state. *)
Lemma upgradeCable_returns (input : CalcInput.t F) (fuel j : nat) (c : CableData.t F) :
  nth_error CABLE_TABLE j = Some c -> (11 <= j + fuel)%nat ->
  exists k c', settled input j k c'
    /\ upgradeCable fuel input c (calculateVD input c) (getIz input c)
       = Return (c', calculateVD input c', getIz input c').
Proof.
  revert j c. induction fuel as [|fuel IH]; intros j c Hj Hfuel.
  - pose proof (nth_CABLE_TABLE_lt _ _ Hj) as Hlt.
    assert (j = 11)%nat by lia. subst j.
    exists 11%nat, c. split.
    { split; [lia|]. split; [assumption|]. split; [intros; lia|now right]. }
    cbn [upgradeCable]. rewrite (indexOf_nth _ _ Hj), CABLE_TABLE_length.
    rewrite andb_false_r. reflexivity.
  - pose proof (nth_CABLE_TABLE_lt _ _ Hj) as Hlt.
    cbn [upgradeCable]. rewrite (indexOf_nth _ _ Hj), CABLE_TABLE_length.
    destruct (VD.dVPercent (calculateVD input c) >? limit input) eqn:Hvd; cbn [andb].
    + destruct (Z.ltb_spec (Z.of_nat j) (Z.of_nat 12 - 1)) as [Hj11|Hj11].
      * destruct (array_get_nth (S j)) as (c1 & Hc1 & Hget); [lia|].
        replace (Z.of_nat j + 1)%Z with (Z.of_nat (S j)) by lia.
        rewrite Hget. cbn [bind].
        destruct (IH (S j) c1 Hc1) as (k & c' & (Hk & Hc' & Hskip & Hend) & Hrun); [lia|].
        exists k, c'. split; [|assumption].
        split; [lia|]. split; [assumption|]. split; [|assumption].
        intros i ci Hi Hci. destruct (Nat.eq_dec i j) as [->|Hne].
        -- rewrite Hci in Hj. injection Hj as ->. exact Hvd.
        -- apply (Hskip i ci); [lia|assumption].
      * exists j, c. split; [|reflexivity].
        split; [lia|]. split; [assumption|]. split; [intros; lia|]. right. lia.
    + exists j, c. split; [|reflexivity].
      split; [lia|]. split; [assumption|]. split; [intros; lia|now left].
Qed.

End Loop.

(** [find] is a scan with an early return. *)
Lemma find_first {A} (p : A -> bool) (l : list A) :
  match find p l with
  | Some x => exists j, nth_error l j = Some x /\ p x = true
                /\ forall i y, (i < j)%nat -> nth_error l i = Some y -> p y = false
  | None => forall y, In y l -> p y = false
  end.
Proof.
  induction l as [|a l IH]; cbn [find].
  - intros y [].
  - destruct (p a) eqn:Pa.
    + exists 0%nat. repeat split; auto. intros i y Hi. lia.
    + destruct (find p l) as [x|].
      * destruct IH as (j & Hj & Px & Hbefore).
        exists (S j). repeat split; auto.
        intros [|i] y Hi; cbn [nth_error].
        -- now intros [= <-].
        -- apply Hbefore. lia.
      * intros y [<-|Hy]; auto.
Qed.

(** ** What [calculateElectrical] returns, for every number system *)

Section Returns.
Context {F : Type} `{JSNumber F}.
Local Open Scope js_scope.

(** [findCable] returns the first fit. *)
Lemma findCable_returns (input : CalcInput.t F) (minIz : F) :
  exists j c, firstFit input minIz j c /\ findCable input minIz = Return c.
Proof.
  unfold findCable, firstFit.
  pose proof (find_first (fun cable => getIz input cable >=? minIz) CABLE_TABLE) as Hf.
  destruct (find _ CABLE_TABLE) as [c|].
  - destruct Hf as (j & Hj & Hc & Hbefore). exists j, c. auto.
  - rewrite CABLE_TABLE_length.
    destruct (array_get_nth 11) as (c & Hc & Hget); [lia|].
    exists 11%nat, c. auto.
Qed.

(** [calculateElectrical] returns the result built from the cable the loop
    settles on. *)
Lemma calculateElectrical_returns (input : CalcInput.t F) :
  exists j k c0 c,
    firstFit input (CalcInput.breakerRating input) j c0
    /\ findCable input (CalcInput.breakerRating input) = Return c0
    /\ settled input j k c
    /\ calculateElectrical input
       = Return (sizeRest input c (calculateVD input c) (getIz input c)).
Proof.
  destruct (findCable_returns input (CalcInput.breakerRating input))
    as (j & c0 & Hfit & Hfind).
  destruct (upgradeCable_returns input 12 j c0 (proj1 Hfit)) as (k & c & Hs & Hrun); [lia|].
  exists j, k, c0, c. repeat split; try assumption; try apply Hfit; try apply Hs.
  unfold calculateElectrical. rewrite Hfind. cbn [bind].
  rewrite CABLE_TABLE_length, Hrun. reflexivity.
Qed.

Lemma settled_In (input : CalcInput.t F) (j k : nat) (c : CableData.t F) :
  settled input j k c -> In c CABLE_TABLE.
Proof. intros (_ & Hk & _). eapply nth_error_In; eassumption. Qed.

(** When the first fitting cable has its drop within the limit, it is the one
    the result is built from. *)
Lemma calculateElectrical_no_upgrade (input : CalcInput.t F) (c0 : CableData.t F) :
  findCable input (CalcInput.breakerRating input) = Return c0 ->
  (VD.dVPercent (calculateVD input c0) >? limit input) = false ->
  calculateElectrical input
  = Return (sizeRest input c0 (calculateVD input c0) (getIz input c0)).
Proof.
  intros Hfind Hvd.
  destruct (calculateElectrical_returns input)
    as (j & k & c0' & c & Hfit & Hfind' & (Hjk & Hk & Hskip & _) & Hrun).
  rewrite Hfind in Hfind'. injection Hfind' as <-.
  destruct (Nat.eq_dec j k) as [->|Hne].
  - destruct Hfit as [Hj _]. rewrite Hk in Hj. injection Hj as ->. exact Hrun.
  - rewrite (Hskip j c0) in Hvd; [discriminate|lia|apply Hfit].
Qed.

(** C1 (as amended).  [calculateElectrical] returns for every input, and the
    [isConform] flag of the result is true exactly when the corrected percent
    voltage drop is within the load-type limit AND the proposed breaker rating
    is within the corrected ampacity of the finally selected cable AND the
    interrupting-capacity flag [isIcnConform] is true, where [isIcnConform]
    says that [breakerIcn * 1000] reaches the estimated short-circuit current.
    [isConform] is the overall conformity: it is not independent of
    [isIcnConform]. *)
Theorem isConform_iff (input : CalcInput.t F) :
  exists (r : CalcResult.t F) (selectedCable : CableData.t F),
    calculateElectrical input = Return r
    /\ In selectedCable CABLE_TABLE
    /\ CalcResult.cableSection r = CableData.section selectedCable
    /\ CalcResult.izCorrected r = getIz input selectedCable
    /\ CalcResult.voltageDropPercent r = VD.dVPercent (calculateVD input selectedCable)
    /\ CalcResult.isIcnConform r
       = (CalcInput.breakerIcn input * ofQ 1000 >=? CalcResult.shortCircuitCurrent r)
    /\ CalcResult.isConform r
       = (CalcResult.voltageDropPercent r <=? limit input)
         && (CalcInput.breakerRating input <=? CalcResult.izCorrected r)
         && CalcResult.isIcnConform r.
Proof.
  destruct (calculateElectrical_returns input) as (j & k & c0 & c & _ & _ & Hs & Hrun).
  exists (sizeRest input c (calculateVD input c) (getIz input c)), c.
  split; [exact Hrun|]. split; [exact (settled_In _ _ _ _ Hs)|].
  destruct input; repeat split; reflexivity.
Qed.

(** [conduitSizeOf] maps a total area through the ascending thresholds 150,
    300, 500 and 800 to the five trade sizes: the size is that of the largest
    threshold exceeded. *)
Lemma conduitSizeOf_thresholds (totalArea : F) :
  conduitSizeOf totalArea =
    if totalArea >? ofQ 800 then Conduit_2
    else if totalArea >? ofQ 500 then Conduit_1_1_2
    else if totalArea >? ofQ 300 then Conduit_1_1_4
    else if totalArea >? ofQ 150 then Conduit_1
    else Conduit_3_4.
Proof.
  unfold conduitSizeOf.
  destruct (totalArea >? ofQ 800), (totalArea >? ofQ 500),
    (totalArea >? ofQ 300), (totalArea >? ofQ 150); reflexivity.
Qed.

(** C5 (as amended).  The total conductor cross-section used for conduit
    sizing is the selected phase section multiplied by 3 for a three-phase
    circuit and by 2 for a single-phase or a two-phase one, plus the neutral
    section plus the earth section; the conduit size returned is that total
    mapped through the thresholds 150, 300, 500, 800 to one of 3/4, 1, 1 1/4,
    1 1/2 and 2 inches. *)
Theorem conduit_sizing (input : CalcInput.t F) :
  exists r : CalcResult.t F,
    calculateElectrical input = Return r
    /\ (let totalArea :=
          CalcResult.cableSection r
            * (match CalcInput.systemType input with
               | trifasico => ofQ 3
               | monofasico | bifasico => ofQ 2
               end)
          + CalcResult.neutralSection r + CalcResult.earthSection r in
        CalcResult.conduitSize r
        = if totalArea >? ofQ 800 then Conduit_2
          else if totalArea >? ofQ 500 then Conduit_1_1_2
          else if totalArea >? ofQ 300 then Conduit_1_1_4
          else if totalArea >? ofQ 150 then Conduit_1
          else Conduit_3_4).
Proof.
  destruct (calculateElectrical_returns input) as (j & k & c0 & c & _ & _ & Hs & Hrun).
  exists (sizeRest input c (calculateVD input c) (getIz input c)).
  split; [exact Hrun|].
  cbv zeta. rewrite <- conduitSizeOf_thresholds.
  destruct input as [[] ? ? ? ? ? ? ? ? ? ? ? ? ?]; reflexivity.
Qed.

Lemma get_index_absent (o : list (F * F)) (k : F) :
  (forall k' v, In (k', v) o -> (k ===? k') = false) -> get_index o k = Undefined.
Proof.
  induction o as [|[k' v] o IH]; intros Habs; cbn [get_index]; [reflexivity|].
  rewrite (Habs k' v) by (left; reflexivity).
  apply IH. intros k2 v2 Hin. apply (Habs k2 v2). now right.
Qed.

End Returns.

(** ** The order of binary64 *)

Section Binary64.
Local Open Scope js_scope.

(** [ofQ] reads a decimal literal as the double nearest to it, as the
    parser of floating-point literals does. *)
Lemma ofQ_literals :
  forallb (fun p : Q * float => PrimFloat.eqb (ofQ (fst p)) (snd p))
    [ (1.5%Q, 1.5%float); (17.5%Q, 17.5%float); (16.5%Q, 16.5%float); (19.5%Q, 19.5%float);
      (12.1%Q, 12.1%float); (7.41%Q, 7.41%float); (4.61%Q, 4.61%float); (3.08%Q, 3.08%float);
      (1.83%Q, 1.83%float); (1.15%Q, 1.15%float); (0.727%Q, 0.727%float);
      (0.524%Q, 0.524%float); (0.387%Q, 0.387%float); (0.268%Q, 0.268%float);
      (0.193%Q, 0.193%float); (0.153%Q, 0.153%float); (1.22%Q, 1.22%float);
      (1.17%Q, 1.17%float); (1.12%Q, 1.12%float); (1.06%Q, 1.06%float); (1.00%Q, 1%float);
      (0.94%Q, 0.94%float); (0.87%Q, 0.87%float); (0.79%Q, 0.79%float); (0.71%Q, 0.71%float);
      (0.80%Q, 0.8%float); (0.70%Q, 0.7%float); (0.65%Q, 0.65%float); (0.60%Q, 0.6%float);
      (0.57%Q, 0.57%float); (0.54%Q, 0.54%float); (0.52%Q, 0.52%float); (0.50%Q, 0.5%float);
      (1.25%Q, 1.25%float); (0.78%Q, 0.78%float); (1.6%Q, 1.6%float); (735.5%Q, 735.5%float);
      (2.3%Q, 2.3%float); (1.1%Q, 1.1%float); (0.45%Q, 0.45%float); (127%Q, 127%float);
      (1000%Q, 1000%float); (5.2%Q, 5.2%float) ] = true.
Proof. vm_compute. reflexivity. Qed.

Lemma SFleb_trans (a b c : spec_float) :
  SFleb a b = true -> SFleb b c = true -> SFleb a c = true.
Proof.
  unfold SFleb, SFcompare.
  destruct a as [sa|sa| |sa ma ea], b as [sb|sb| |sb mb eb], c as [sc|sc| |sc mc ec];
    try discriminate; try reflexivity;
    repeat match goal with s : bool |- _ => destruct s end;
    try discriminate; try reflexivity.
  all: rewrite ?Pos.compare_cont_spec by reflexivity; cbn [Pos.switch_Eq].
  all: fold (Pos.compare ma mb) (Pos.compare mb mc) (Pos.compare ma mc).
  all: destruct (Z.compare_spec ea eb), (Z.compare_spec eb ec), (Z.compare_spec ea ec);
    try discriminate; try reflexivity; try lia.
  all: destruct (Pos.compare_spec ma mb), (Pos.compare_spec mb mc), (Pos.compare_spec ma mc);
    cbn; try discriminate; try reflexivity; try lia.
Qed.

Lemma leb_trans (x y z : float) :
  (x <=? y) = true -> (y <=? z) = true -> (x <=? z) = true.
Proof.
  cbn [nleb binary64]. rewrite !leb_spec. apply SFleb_trans.
Qed.


Lemma ascending_nth (l : list float) :
  ascending l = true ->
  forall j k x y, (j < k)%nat -> nth_error l j = Some x -> nth_error l k = Some y ->
    (x <=? y) = true.
Proof.
  induction l as [|a l IH]; intros Hasc j k x y Hjk Hj Hk.
  - destruct j; discriminate.
  - cbn [ascending] in Hasc. apply andb_true_iff in Hasc as [Ha Hl].
    destruct k as [|k]; [lia|]. cbn [nth_error] in Hk.
    destruct j as [|j].
    + injection Hj as <-. rewrite forallb_forall in Ha. apply Ha.
      eapply nth_error_In; eassumption.
    + cbn [nth_error] in Hj. apply (IH Hl j k); auto. lia.
Qed.

(** Division of a double by [+0]. *)
Lemma div_zero (v : float) :
  ((0 <? v)%float = true -> (v / 0)%float = infinity)
  /\ ((v <? 0)%float = true -> (v / 0)%float = neg_infinity)
  /\ ((0 <? v)%float = false -> (v <? 0)%float = false -> (v / 0)%float = nan).
Proof.
  rewrite !ltb_spec. change (Prim2SF 0) with (S754_zero false).
  repeat split; intros; apply Prim2SF_inj; rewrite div_spec;
    change (Prim2SF 0) with (S754_zero false);
    destruct (Prim2SF v) as [[]|[]| |[] m e]; try discriminate; reflexivity.
Qed.

Lemma div_zero_not_finite (v : float) : is_finite (v / 0)%float = false.
Proof.
  destruct (div_zero v) as (Hpos & Hneg & Hnan).
  destruct (0 <? v)%float; [rewrite Hpos; reflexivity|].
  destruct (v <? 0)%float; [rewrite Hneg; reflexivity|].
  rewrite Hnan; reflexivity.
Qed.

(** Division of a double by [-0]: the signs are exchanged. *)
Lemma div_neg_zero (v : float) :
  ((0 <? v)%float = true -> (v / -0)%float = neg_infinity)
  /\ ((v <? 0)%float = true -> (v / -0)%float = infinity)
  /\ ((0 <? v)%float = false -> (v <? 0)%float = false -> (v / -0)%float = nan).
Proof.
  rewrite !ltb_spec. change (Prim2SF 0) with (S754_zero false).
  repeat split; intros; apply Prim2SF_inj; rewrite div_spec;
    change (Prim2SF (-0)) with (S754_zero true);
    destruct (Prim2SF v) as [[]|[]| |[] m e]; try discriminate; reflexivity.
Qed.

Lemma div_neg_zero_not_finite (v : float) : is_finite (v / -0)%float = false.
Proof.
  destruct (div_neg_zero v) as (Hpos & Hneg & Hnan).
  destruct (0 <? v)%float; [rewrite Hpos; reflexivity|].
  destruct (v <? 0)%float; [rewrite Hneg; reflexivity|].
  rewrite Hnan; reflexivity.
Qed.

End Binary64.

(** ** Corrected ampacity along the table (binary64) *)

Section Ampacity.
Local Open Scope js_scope.









End Ampacity.

(** ** Runs of [calculateElectrical] in binary64 *)

Section Runs.
Local Open Scope js_scope.

(** C4.  For the Scenario A input [calculateElectrical] returns a design
    current of 9.45 A (to two decimals), the 1.5 mm2 section with a corrected
    ampacity of 17.5 A, a voltage drop of 4.57 V, that is 3.60 percent, within
    the limit of 4 percent, and [isConform] true (the fault current is within
    the 3 kA interrupting capacity). *)
Theorem scenario_A :
  exists r : CalcResult.t float,
    calculateElectrical scenarioA = Return r
    /\ (ofQ 9.445 <=? CalcResult.current r) = true
    /\ (CalcResult.current r <? ofQ 9.455) = true
    /\ CalcResult.cableSection r = ofQ 1.5
    /\ CalcResult.izCorrected r = ofQ 17.5
    /\ (ofQ 4.565 <=? CalcResult.voltageDrop r) = true
    /\ (CalcResult.voltageDrop r <? ofQ 4.575) = true
    /\ (ofQ 3.595 <=? CalcResult.voltageDropPercent r) = true
    /\ (CalcResult.voltageDropPercent r <? ofQ 3.605) = true
    /\ limit scenarioA = ofQ 4
    /\ (CalcResult.voltageDropPercent r <=? limit scenarioA) = true
    /\ CalcResult.isIcnConform r = true
    /\ CalcResult.isConform r = true.
Proof.
  eexists. split; [vm_compute; reflexivity|].
  vm_compute. repeat split.
Qed.

(** C1 fails as stated.  With a breaker of 0.5 kA, Scenario A has its percent
    drop within the limit and its breaker rating within the corrected
    ampacity, and [isConform] is false, because [isIcnConform] is; with the
    3 kA breaker and nothing else changed [isConform] is true. *)
Lemma isConform_depends_on_isIcnConform :
  exists r r' : CalcResult.t float,
    calculateElectrical scenarioA_lowIcn = Return r
    /\ calculateElectrical scenarioA = Return r'
    /\ (CalcResult.voltageDropPercent r <=? limit scenarioA_lowIcn) = true
    /\ (CalcInput.breakerRating scenarioA_lowIcn <=? CalcResult.izCorrected r) = true
    /\ CalcResult.isIcnConform r = false
    /\ CalcResult.isConform r = false
    /\ CalcResult.voltageDropPercent r' = CalcResult.voltageDropPercent r
    /\ CalcResult.izCorrected r' = CalcResult.izCorrected r
    /\ CalcResult.isConform r' = true.
Proof.
  eexists. eexists. split; [vm_compute; reflexivity|]. split; [vm_compute; reflexivity|].
  vm_compute. repeat split.
Qed.

(** C2 fails as stated.  Scenario A at 23 m instead of 20 m has its drop on
    the 1.5 mm2 cable above 4 percent, so the loop moves to 2.5 mm2, and the
    drop returned (3.22 V, 2.54 percent) is smaller than at 20 m (4.57 V,
    3.60 percent). *)
Lemma longer_circuit_smaller_drop :
  exists r r' : CalcResult.t float,
    calculateElectrical scenarioA = Return r
    /\ calculateElectrical (withLength scenarioA (ofQ 23)) = Return r'
    /\ (CalcInput.length scenarioA <? ofQ 23) = true
    /\ CalcResult.cableSection r = ofQ 1.5
    /\ CalcResult.cableSection r' = ofQ 2.5
    /\ (CalcResult.voltageDrop r' <? CalcResult.voltageDrop r) = true
    /\ (CalcResult.voltageDropPercent r' <? CalcResult.voltageDropPercent r) = true.
Proof.
  eexists. eexists. split; [vm_compute; reflexivity|]. split; [vm_compute; reflexivity|].
  vm_compute. repeat split.
Qed.

(** C5 fails as stated.  For a single-phase circuit on the 50 mm2 cable
    (neutral 50, earth 25) the engine sizes the conduit for 2 x 50 + 50 + 25 =
    175 mm2 and returns 1 inch; with one phase conductor the total would be
    125 mm2 and the size 3/4 inch. *)
Lemma conduit_single_phase_counts_two :
  exists r : CalcResult.t float,
    calculateElectrical singlePhase100A = Return r
    /\ CalcInput.systemType singlePhase100A = monofasico
    /\ CalcResult.cableSection r = ofQ 50
    /\ CalcResult.neutralSection r = ofQ 50
    /\ CalcResult.earthSection r = ofQ 25
    /\ CalcResult.conduitSize r = Conduit_1
    /\ conduitSizeOf (CalcResult.cableSection r * ofQ 1
                      + CalcResult.neutralSection r + CalcResult.earthSection r)
       = Conduit_3_4.
Proof.
  eexists. split; [vm_compute; reflexivity|].
  vm_compute. repeat split.
Qed.

(** C8 fails on the code.  The method ['toString'] is not a key of any
    capacity map, yet [capacity['toString']] is the function every object
    inherits: it is truthy, so [||] does not fall back to B1, and as a factor
    it is NaN.  No corrected ampacity reaches the breaker rating, the largest
    section is returned with a NaN ampacity, not conform; with the B1
    capacity the claim promises, the same input gets 1.5 mm2 at 17.5 A,
    conform. *)
Theorem calculateElectrical_method_toString :
  (forall cable : CableData.t float, In cable CABLE_TABLE ->
     assoc (CalcInput.method scenarioA_toString) (CableData.capacity cable) = None)
  /\ exists r rB1 : CalcResult.t float,
       calculateElectrical scenarioA_toString = Return r
       /\ calculateElectrical (withMethod scenarioA_toString "B1") = Return rB1
       /\ CalcResult.cableSection r = ofQ 120
       /\ (CalcResult.izCorrected r ===? CalcResult.izCorrected r) = false
       /\ CalcResult.isConform r = false
       /\ CalcResult.cableSection rB1 = ofQ 1.5
       /\ CalcResult.izCorrected rB1 = ofQ 17.5
       /\ CalcResult.isConform rB1 = true.
Proof.
  split.
  - intros cable Hc. simpl in Hc.
    repeat (destruct Hc as [<-|Hc]; [reflexivity|]). destruct Hc.
  - eexists. eexists. split; [vm_compute; reflexivity|]. split; [vm_compute; reflexivity|].
    vm_compute. repeat split.
Qed.

End Runs.

(** ** [calculateMotor] (binary64) *)

Section Motor.
Local Open Scope js_scope.

Lemma BREAKER_RATINGS_ok :
  ascending BREAKER_RATINGS = true
  /\ forallb (fun r : float => (r <=? r) && truthy (Num r)) BREAKER_RATINGS = true.
Proof. vm_compute. split; reflexivity. Qed.

(** [roundUpToRating x] is the smallest standard rating at or above [x] when
    there is one, and 125 otherwise. *)
Lemma roundUpToRating_spec (x : float) :
  ((exists rating, In rating BREAKER_RATINGS /\ (rating >=? x) = true) ->
     In (roundUpToRating x) BREAKER_RATINGS
     /\ (roundUpToRating x >=? x) = true
     /\ forall rating, In rating BREAKER_RATINGS -> (rating >=? x) = true ->
                       (roundUpToRating x <=? rating) = true)
  /\ ((forall rating, In rating BREAKER_RATINGS -> (rating >=? x) = false) ->
      roundUpToRating x = ofQ 125).
Proof.
  unfold roundUpToRating.
  pose proof (find_first (fun r : float => r >=? x) BREAKER_RATINGS) as Hf.
  destruct BREAKER_RATINGS_ok as [Hasc Hok]. rewrite forallb_forall in Hok.
  destruct (find _ BREAKER_RATINGS) as [b|].
  - destruct Hf as (j & Hj & Hb & Hbefore).
    assert (Hin : In b BREAKER_RATINGS) by (eapply nth_error_In; eassumption).
    destruct (andb_prop _ _ (Hok b Hin)) as [Hrefl Htruthy].
    unfold js_or. rewrite Htruthy. cbn [toNumber]. split.
    + intros _. repeat split; auto.
      intros rating Hr Hge. destruct (In_nth_error _ _ Hr) as [i Hi].
      destruct (Nat.lt_trichotomy i j) as [Hlt|[->|Hgt]].
      * rewrite (Hbefore i rating Hlt Hi) in Hge. discriminate.
      * rewrite Hi in Hj. injection Hj as ->. exact Hrefl.
      * exact (ascending_nth _ Hasc j i b rating Hgt Hj Hi).
    + intros Hnone. rewrite (Hnone b Hin) in Hb. discriminate.
  - split.
    + intros (rating & Hr & Hge). rewrite (Hf rating Hr) in Hge. discriminate.
    + intros _. reflexivity.
Qed.

Lemma calculateMotor_breaker_eq (input : MotorCalcInput.t float) :
  MotorCalcResult.breaker (calculateMotor input)
  = roundUpToRating (MotorCalcResult.nominalCurrent (calculateMotor input) * ofQ 1.25).
Proof. destruct input. reflexivity. Qed.

(** C7 (as amended).  [calculateMotor] returns as breaker the smallest element
    of BREAKER_RATINGS that is at or above 1.25 times the nominal current when
    there is such an element, and 125 when there is none.  For the Scenario B
    input the nominal current is 8.22 A (to two decimals), the starting
    current is 7 times it, 57.5 A, the breaker is 13 A and the contactor is
    the smallest class, CWM9 (nominal current below 9 A). *)
Theorem calculateMotor_breaker :
  (forall input : MotorCalcInput.t float,
     let r := calculateMotor input in
     let x := MotorCalcResult.nominalCurrent r * ofQ 1.25 in
     ((exists rating, In rating BREAKER_RATINGS /\ (rating >=? x) = true) ->
        In (MotorCalcResult.breaker r) BREAKER_RATINGS
        /\ (MotorCalcResult.breaker r >=? x) = true
        /\ forall rating, In rating BREAKER_RATINGS -> (rating >=? x) = true ->
                          (MotorCalcResult.breaker r <=? rating) = true)
     /\ ((forall rating, In rating BREAKER_RATINGS -> (rating >=? x) = false) ->
         MotorCalcResult.breaker r = ofQ 125))
  /\ (let r := calculateMotor scenarioB in
      (ofQ 8.215 <=? MotorCalcResult.nominalCurrent r) = true
      /\ (MotorCalcResult.nominalCurrent r <? ofQ 8.225) = true
      /\ MotorCalcResult.startingCurrent r = MotorCalcResult.nominalCurrent r * ofQ 7
      /\ (ofQ 57.45 <=? MotorCalcResult.startingCurrent r) = true
      /\ (MotorCalcResult.startingCurrent r <? ofQ 57.55) = true
      /\ MotorCalcResult.breaker r = ofQ 13
      /\ (MotorCalcResult.nominalCurrent r <? ofQ 9) = true
      /\ MotorCalcResult.contactor r = "CWM9"%string).
Proof.
  split.
  - intros input r x. subst r x. rewrite calculateMotor_breaker_eq.
    apply roundUpToRating_spec.
  - vm_compute. repeat split.
Qed.

(** C7 fails as stated.  For a 100 CV motor 1.25 times the nominal current is
    205 A, above every standard rating: the breaker returned is 125 A, which
    is not at or above it. *)
Lemma calculateMotor_breaker_fallback :
  let r := calculateMotor motor100cv in
  MotorCalcResult.breaker r = ofQ 125
  /\ In (MotorCalcResult.breaker r) BREAKER_RATINGS
  /\ (MotorCalcResult.breaker r >=? MotorCalcResult.nominalCurrent r * ofQ 1.25) = false.
Proof.
  cbv zeta. split; [vm_compute; reflexivity|]. split.
  - replace (MotorCalcResult.breaker (calculateMotor motor100cv)) with (ofQ 125 : float)
      by (vm_compute; reflexivity).
    simpl. do 13 right. left. reflexivity.
  - vm_compute. reflexivity.
Qed.

End Motor.

(** ** [estimateShortCircuit] (binary64) *)

Section ShortCircuit.
Local Open Scope js_scope.

Lemma resistanceOrOne_values {F} `{JSNumber F} (section : F) :
  In (resistanceOrOne section) (ofQ 1 :: map (@CableData.resistance F) CABLE_TABLE).
Proof.
  unfold resistanceOrOne.
  pose proof (find_first (fun c => CableData.section c ===? section) CABLE_TABLE) as Hf.
  destruct (find _ CABLE_TABLE) as [c|].
  - destruct Hf as (j & Hj & _). unfold js_or.
    destruct (truthy _); [|now left]. right. cbn [toNumber].
    apply (in_map (@CableData.resistance F)). eapply nth_error_In; eassumption.
  - now left.
Qed.

(** The resistance used is that of the first cable of the table with the
    given section, and 1 Ohm/km when there is none. *)
Lemma resistanceOrOne_found (section : float) :
  match find (fun c => CableData.section c ===? section) CABLE_TABLE with
  | Some c => resistanceOrOne section = CableData.resistance c
  | None => resistanceOrOne section = ofQ 1
  end.
Proof.
  unfold resistanceOrOne.
  assert (Hok : forallb (fun c : CableData.t float => truthy (Num (CableData.resistance c)))
                  CABLE_TABLE = true) by (vm_compute; reflexivity).
  rewrite forallb_forall in Hok.
  pose proof (find_first (fun c => CableData.section c ===? section) CABLE_TABLE) as Hf.
  destruct (find _ CABLE_TABLE) as [c|]; [|reflexivity].
  destruct Hf as (j & Hj & _). unfold js_or.
  rewrite (Hok c) by (eapply nth_error_In; eassumption). reflexivity.
Qed.

Lemma scaled_resistance_zero (section : float) :
  resistanceOrOne section * (ofQ 0 / ofQ 1000) = 0%float.
Proof.
  pose proof (resistanceOrOne_values section) as Hin.
  assert (Hall : forall r : float,
             In r (ofQ 1 :: map (@CableData.resistance float) CABLE_TABLE) ->
             r * (ofQ 0 / ofQ 1000) = 0%float).
  { intros r Hr. cbn in Hr.
    repeat (destruct Hr as [<-|Hr]; [vm_compute; reflexivity|]). destruct Hr. }
  exact (Hall _ Hin).
Qed.

Lemma scaled_resistance_neg_zero (section : float) :
  resistanceOrOne section * ((-0)%float / ofQ 1000) = (-0)%float.
Proof.
  pose proof (resistanceOrOne_values section) as Hin.
  assert (Hall : forall r : float,
             In r (ofQ 1 :: map (@CableData.resistance float) CABLE_TABLE) ->
             r * ((-0)%float / ofQ 1000) = (-0)%float).
  { intros r Hr. cbn in Hr.
    repeat (destruct Hr as [<-|Hr]; [vm_compute; reflexivity|]). destruct Hr. }
  exact (Hall _ Hin).
Qed.

(** C10 (as amended).  [estimateShortCircuit] has no guard against a zero
    divisor.  For every voltage, length and section it returns the voltage
    divided by (the resistance times length/1000), where the resistance is
    that of the table for the section and 1 Ohm/km when the section is not in
    the table.  When the length is 0 the scaled resistance is 0 and the
    function returns voltage/0, which is never a finite current and never an
    error: Infinity for a positive voltage, -Infinity for a negative one, and
    NaN for a voltage that is zero or NaN.  (For the length -0, which is also
    [=== 0], the scaled resistance is -0 and the result is again not finite.) *)
Theorem estimateShortCircuit_spec :
  (forall voltage length section : float,
     estimateShortCircuit voltage length section
     = voltage / (resistanceOrOne section * (length / ofQ 1000))
     /\ match find (fun c => CableData.section c ===? section) CABLE_TABLE with
        | Some c => resistanceOrOne section = CableData.resistance c
        | None => resistanceOrOne section = ofQ 1
        end)
  /\ (forall voltage section : float,
        let Isc := estimateShortCircuit voltage (ofQ 0) section in
        resistanceOrOne section * (ofQ 0 / ofQ 1000) = ofQ 0
        /\ Isc = voltage / ofQ 0
        /\ is_finite Isc = false
        /\ ((voltage >? ofQ 0) = true -> Isc = infinity)
        /\ ((voltage <? ofQ 0) = true -> Isc = neg_infinity)
        /\ ((voltage >? ofQ 0) = false -> (voltage <? ofQ 0) = false -> Isc = nan))
  /\ (forall voltage section : float,
        let Isc := estimateShortCircuit voltage (-0)%float section in
        Isc = voltage / (-0)%float /\ is_finite Isc = false).
Proof.
  split; [|split].
  - intros voltage length section. split; [reflexivity|apply resistanceOrOne_found].
  - intros voltage section Isc. subst Isc. unfold estimateShortCircuit.
    rewrite scaled_resistance_zero.
    change (ofQ 0 : float) with 0%float. cbn [nltb ndiv binary64].
    destruct (div_zero voltage) as (Hpos & Hneg & Hnan).
    repeat split; auto using div_zero_not_finite.
  - intros voltage section Isc. subst Isc. unfold estimateShortCircuit.
    rewrite scaled_resistance_neg_zero. cbn [ndiv binary64].
    split; [reflexivity|apply div_neg_zero_not_finite].
Qed.

(** C10 fails as stated.  At zero length a zero voltage gives 0/0, which is
    NaN and not Infinity, and a negative voltage gives -Infinity. *)
Lemma estimateShortCircuit_zero_volts :
  is_nan (estimateShortCircuit (ofQ 0) (ofQ 0) (ofQ 1.5)) = true
  /\ is_infinity (estimateShortCircuit (ofQ 0) (ofQ 0) (ofQ 1.5) : float) = false
  /\ estimateShortCircuit (PrimFloat.opp (ofQ 127)) (ofQ 0) (ofQ 1.5) = neg_infinity.
Proof. vm_compute. repeat split. Qed.

End ShortCircuit.

(** ** [calculateSolar] *)

Section Solar.
Local Open Scope js_scope.

(** C9 fails as stated.  In binary64, for 500 kWh a month at 5.2 kWh/m2/day
    (both nonzero, as is the panel power) the monthly generation returned is
    500.00000000000011, not the consumption: each of the six operations
    rounds, and the roundings do not cancel. *)
Lemma calculateSolar_rounding :
  (SolarInput.solarIrradiation solar500 ===? ofQ 0) = false
  /\ (SolarInput.panelPower solar500 ===? ofQ 0) = false
  /\ SolarInput.monthlyConsumption solar500 = 500%float
  /\ SolarResult.monthlyGeneration (calculateSolar solar500) = 500.00000000000011%float
  /\ (SolarResult.monthlyGeneration (calculateSolar solar500)
      ===? SolarInput.monthlyConsumption solar500) = false.
Proof. vm_compute. repeat split. Qed.

(** C9 (as amended).  In exact arithmetic, for every input with a nonzero
    solar irradiation, the monthly generation returned by [calculateSolar]
    equals the monthly consumption of the input: the division by 30, by the
    irradiation and by 0.8 are undone by the three multiplications.  (In
    binary64 each of the six operations rounds and the equality can fail.) *)
Theorem calculateSolar_generation (input : SolarInput.t R) :
  SolarInput.solarIrradiation input <> 0%R ->
  SolarResult.monthlyGeneration (calculateSolar input) = SolarInput.monthlyConsumption input.
Proof.
  destruct input as [m irr p]. cbn. intros Hirr.
  unfold Q2R. cbn. field. exact Hirr.
Qed.

Lemma calculateSolar_generation_solar500 :
  SolarResult.monthlyGeneration (calculateSolar solar500_exact)
  = SolarInput.monthlyConsumption solar500_exact.
Proof.
  apply (calculateSolar_generation solar500_exact).
  cbn. unfold Q2R. cbn. lra.
Defined.

End Solar.

(** ** [calculateQDC] and the caller's array *)

Section QDC.
Context {F : Type} `{JSNumber F}.
Local Open Scope js_scope.

Lemma heap_get_set (h : Heap) (a : nat) (arr arr' : list (Circuit.t F)) :
  heap_get h a = Return arr -> heap_get (heap_set h a arr') a = Return arr'.
Proof.
  unfold heap_get. revert a. induction h as [|x h IH]; intros [|a]; cbn; try discriminate.
  - reflexivity.
  - apply IH.
Qed.

(** Sorting keeps the elements of the array and changes only their order. *)
Lemma sort_insert_permutation {A} (comparefn : A -> A -> F) (x : A) (l : list A) :
  Permutation (sort_insert comparefn x l) (x :: l).
Proof.
  induction l as [|y l IH]; cbn [sort_insert]; [reflexivity|].
  destruct (comparefn x y >? ofQ 0); [|reflexivity].
  rewrite IH. apply perm_swap.
Qed.

Lemma Array_sort_permutation {A} (comparefn : A -> A -> F) (l : list A) :
  Permutation (Array_sort comparefn l) l.
Proof.
  induction l as [|x l IH]; cbn [Array_sort]; [reflexivity|].
  rewrite sort_insert_permutation. now apply perm_skip.
Qed.

(** The call leaves, at the address of [input.circuits], the array sorted by
    descending current. *)
Lemma calculateQDC_heap (input : QDCCalcInput.t) (h : Heap) (circuits : list (Circuit.t F)) :
  heap_get h (QDCCalcInput.circuits input) = Return circuits ->
  exists r h',
    calculateQDC input h = Return (r, h')
    /\ heap_get h' (QDCCalcInput.circuits input)
       = Return (Array_sort (fun a b => Circuit.current b - Circuit.current a) circuits).
Proof.
  intros Hget. unfold calculateQDC. rewrite Hget. cbn [bind].
  eexists. eexists. split; [reflexivity|].
  eapply heap_get_set. eassumption.
Qed.

End QDC.

(** C6 fails on the code.  Called on the panel of Scenario C, whose array
    holds the circuits of 20, 15 and 32 A in that order, [calculateQDC]
    returns a total of 67 A and a main breaker of 63 A, and leaves the
    caller's array holding 32, 20, 15: the same elements in another order. *)
Theorem calculateQDC_sorts_caller_array :
  exists r h',
    calculateQDC scenarioC scenarioC_heap = Return (r, h')
    /\ QDCCalcResult.totalCurrent r = ofQ 67
    /\ QDCCalcResult.mainBreaker r = ofQ 63
    /\ heap_get scenarioC_heap (QDCCalcInput.circuits scenarioC)
       = Return [circuit20; circuit15; circuit32]
    /\ heap_get h' (QDCCalcInput.circuits scenarioC)
       = Return [circuit32; circuit20; circuit15].
Proof.
  eexists. eexists. split; [vm_compute; reflexivity|].
  vm_compute. repeat split.
Qed.

(** ** Rounding in binary64 is monotone

    Multiplying or dividing by a positive finite double never reverses the
    order of two doubles: the exact results are in order, and rounding to
    nearest even keeps them so.  Proved from the specification of the
    primitive operations ([mul_spec], [div_spec]). *)

Section Rounding.
Local Open Scope Z_scope.

(** *** Shifts to the right

    A shift by [n] places divides the fraction by [2^n]. *)

Lemma shr_m_rec_of a b : shr_m (rec_of a b) = a / b.
Proof. unfold rec_of. destruct (loc_of a b) as [|[]]; reflexivity. Qed.

Lemma loc_rec_of a b : loc_of_shr_record (rec_of a b) = loc_of a b.
Proof. unfold rec_of. destruct (loc_of a b) as [|[]]; reflexivity. Qed.

Lemma rne_rec_of a b :
  0 < b -> round_nearest_even (shr_m (rec_of a b)) (loc_of_shr_record (rec_of a b)) = rne a b.
Proof.
  intros Hb. rewrite shr_m_rec_of, loc_rec_of. unfold loc_of, rne.
  destruct (Z.eqb_spec (a mod b) 0) as [E|E].
  - rewrite E. cbn [round_nearest_even]. destruct (Z.compare_spec (2 * 0) b); lia.
  - cbn [round_nearest_even]. destruct (2 * (a mod b) ?= b); reflexivity.
Qed.

Lemma shr_1_spec m r s :
  0 <= m -> shr_1 (Build_shr_record m r s) = Build_shr_record (m / 2) (Z.odd m) (r || s).
Proof.
  intros Hm. destruct m as [|p|p]; [reflexivity| |lia].
  destruct p as [p|p|]; cbn [shr_1].
  - f_equal. change (Z.pos p~1) with (2 * Z.pos p + 1).
    apply Z.div_unique with 1; lia.
  - f_equal. change (Z.pos p~0) with (2 * Z.pos p).
    apply Z.div_unique with 0; lia.
  - reflexivity.
Qed.

Lemma shr_1_rec_of a b : 0 <= a -> 0 < b -> shr_1 (rec_of a b) = rec_of a (2 * b).
Proof.
  intros Ha Hb.
  assert (Hq : 0 <= a / b) by (apply Z.div_pos; lia).
  pose proof (Z.mod_pos_bound a b Hb) as Hr.
  assert (Hdiv : a / (2 * b) = a / b / 2) by (rewrite Z.div_div by lia; f_equal; lia).
  assert (Hmod : a mod (2 * b) = a mod b + b * (if Z.odd (a / b) then 1 else 0)).
  { rewrite (Z.mul_comm 2 b), Z.rem_mul_r by lia. now rewrite Zmod_odd. }
  unfold rec_of, loc_of. rewrite Hdiv, Hmod.
  destruct (Z.eqb_spec (a mod b) 0) as [E|E].
  - rewrite E. cbn [shr_record_of_loc]. rewrite shr_1_spec by exact Hq.
    destruct (Z.odd (a / b)); cbn [orb].
    + destruct (Z.eqb_spec (0 + b * 1) 0); [lia|].
      destruct (Z.compare_spec (2 * (0 + b * 1)) (2 * b)); try lia. reflexivity.
    + destruct (Z.eqb_spec (0 + b * 0) 0); [|lia]. reflexivity.
  - destruct (Z.compare_spec (2 * (a mod b)) b) as [C|C|C];
      cbn [shr_record_of_loc]; rewrite shr_1_spec by exact Hq;
      destruct (Z.odd (a / b)); cbn [orb];
      match goal with |- context [?x =? 0] => destruct (Z.eqb_spec x 0); [lia|] end;
      match goal with |- context [?x ?= ?y] => destruct (Z.compare_spec x y); try lia end;
      reflexivity.
Qed.

Lemma iter_pos_shr_1 p : forall a b,
  0 <= a -> 0 < b -> iter_pos shr_1 p (rec_of a b) = rec_of a (2 ^ Zpos p * b).
Proof.
  induction p as [p IH|p IH|]; intros a b Ha Hb; cbn [iter_pos].
  - assert (Hp : 0 < 2 ^ Z.pos p) by (apply Z.pow_pos_nonneg; lia).
    rewrite shr_1_rec_of, IH, IH by nia. f_equal.
    replace (Z.pos p~1) with (Z.pos p + Z.pos p + 1) by lia.
    rewrite !Z.pow_add_r by lia. change (2 ^ 1) with 2. ring.
  - assert (Hp : 0 < 2 ^ Z.pos p) by (apply Z.pow_pos_nonneg; lia).
    rewrite IH, IH by nia. f_equal.
    replace (Z.pos p~0) with (Z.pos p + Z.pos p) by lia.
    rewrite !Z.pow_add_r by lia. ring.
  - rewrite shr_1_rec_of by lia. reflexivity.
Qed.

Lemma shr_rec_of a b e n :
  0 <= a -> 0 < b -> 0 <= n -> shr (rec_of a b) e n = (rec_of a (2 ^ n * b), e + n).
Proof.
  intros Ha Hb Hn. destruct n as [|p|p]; [|cbn [shr]|lia].
  - cbn [shr]. rewrite Z.add_0_r. change (2 ^ 0) with 1. now rewrite Z.mul_1_l.
  - now rewrite iter_pos_shr_1.
Qed.

(** *** Rounding to the nearest even integer

    It is monotone, and exact on the integers. *)
Lemma rne_bounds a b : 0 < b -> a / b <= rne a b <= a / b + 1.
Proof.
  intros Hb. unfold rne. destruct (2 * (a mod b) ?= b); [destruct (Z.even (a / b))| |]; lia.
Qed.

Lemma rne_exact k b : 0 < b -> rne (k * b) b = k.
Proof.
  intros Hb. unfold rne. rewrite Z.mod_mul, Z.div_mul by lia.
  destruct (Z.compare_spec (2 * 0) b); lia.
Qed.

Lemma rne_mono a1 b1 a2 b2 :
  0 < b1 -> 0 < b2 -> a1 * b2 <= a2 * b1 -> rne a1 b1 <= rne a2 b2.
Proof.
  intros Hb1 Hb2 Hle.
  pose proof (Z.div_mod a1 b1 ltac:(lia)) as E1.
  pose proof (Z.div_mod a2 b2 ltac:(lia)) as E2.
  pose proof (Z.mod_pos_bound a1 b1 Hb1) as R1.
  pose proof (Z.mod_pos_bound a2 b2 Hb2) as R2.
  pose proof (rne_bounds a1 b1 Hb1) as B1.
  pose proof (rne_bounds a2 b2 Hb2) as B2.
  set (q1 := a1 / b1) in *. set (r1 := a1 mod b1) in *.
  set (q2 := a2 / b2) in *. set (r2 := a2 mod b2) in *.
  assert (Hq : q1 <= q2).
  { destruct (Z_le_gt_dec q1 q2) as [|Hgt]; [assumption|exfalso].
    assert (b1 * (q2 + 1) <= b1 * q1) by (apply Z.mul_le_mono_nonneg_l; lia).
    assert (a2 * b1 < (q2 + 1) * b2 * b1) by (apply Z.mul_lt_mono_pos_r; lia).
    assert ((q2 + 1) * b1 * b2 <= a1 * b2) by (apply Z.mul_le_mono_nonneg_r; lia).
    lia. }
  destruct (Z.eq_dec q1 q2) as [Heq|Hne]; [|lia].
  assert (Hr : r1 * b2 <= r2 * b1).
  { rewrite E1, E2, Heq in Hle. lia. }
  unfold rne. fold q1 q2 r1 r2. rewrite <- Heq.
  destruct (Z.compare_spec (2 * r1) b1) as [K1|K1|K1],
           (Z.compare_spec (2 * r2) b2) as [K2|K2|K2];
    try (destruct (Z.even q1)); try lia; exfalso; nia.
Qed.

(** *** Digits *)

Lemma digits2_pos_size p : digits2_pos p = Pos.size p.
Proof. induction p as [p IH|p IH|]; cbn; now rewrite ?IH. Qed.

Lemma Zdigits2_bounds m : 0 < m -> 2 ^ (Zdigits2 m - 1) <= m < 2 ^ Zdigits2 m.
Proof.
  intros Hm. destruct m as [|p|p]; try lia. cbn [Zdigits2]. rewrite digits2_pos_size.
  pose proof (Pos.size_gt p) as Hgt. pose proof (Pos.size_le p) as Hle.
  apply Pos2Z.pos_lt_pos in Hgt. apply Pos2Z.pos_le_pos in Hle.
  rewrite Pos2Z.inj_pow in Hgt, Hle.
  replace (Z.pos (Pos.size p)) with (Z.pos (Pos.size p) - 1 + 1) in Hle at 1 by lia.
  rewrite Z.pow_add_r in Hle by lia. change (2 ^ 1) with 2 in Hle.
  lia.
Qed.

Lemma Zdigits2_nonneg m : 0 <= m -> 0 <= Zdigits2 m.
Proof. destruct m; cbn; lia. Qed.

Lemma Zdigits2_le m k : 0 <= m < 2 ^ k -> 0 <= k -> Zdigits2 m <= k.
Proof.
  intros [Hm Hlt] Hk. destruct (Z.eq_dec m 0) as [->|Hne]; [exact Hk|].
  destruct (Zdigits2_bounds m ltac:(lia)) as [Hlo _].
  destruct (Z_le_gt_dec (Zdigits2 m) k) as [|Hgt]; [assumption|exfalso].
  assert (2 ^ k <= 2 ^ (Zdigits2 m - 1)) by (apply Z.pow_le_mono_r; lia). lia.
Qed.

Lemma Zdigits2_gt m k : 2 ^ k <= m -> 0 <= k -> k < Zdigits2 m.
Proof.
  intros Hle Hk. assert (0 < 2 ^ k) by (apply Z.pow_pos_nonneg; lia).
  destruct (Zdigits2_bounds m ltac:(lia)) as [_ Hhi].
  destruct (Z_lt_ge_dec k (Zdigits2 m)) as [|Hge]; [assumption|exfalso].
  pose proof (Zdigits2_nonneg m ltac:(lia)).
  assert (2 ^ Zdigits2 m <= 2 ^ k) by (apply Z.pow_le_mono_r; lia). lia.
Qed.

(** *** What [binary_round_aux] computes *)

Lemma fexp_eq x : fexp prec emax x = Z.max (x - 53) (-1074).
Proof. reflexivity. Qed.



Lemma shr_nonpos mrs e n : n <= 0 -> shr mrs e n = (mrs, e).
Proof. intros Hn. destruct n; [reflexivity|lia|reflexivity]. Qed.

Lemma second_shift s m e :
  0 <= m <= 2 ^ 53 -> -1074 <= e ->
  (let '(mrs, e') := shr_fexp prec emax m e loc_Exact in
   match shr_m mrs with
   | Z0 => S754_zero s
   | Zpos p => if e' <=? emax - prec then S754_finite s p e' else S754_infinity s
   | Zneg _ => S754_nan
   end) = SFrenorm s m e.
Proof.
  intros Hm He. unfold SFrenorm. destruct (Z.eqb_spec m (2 ^ 53)) as [->|Hne].
  - unfold shr_fexp. rewrite fexp_eq.
    change (Zdigits2 (2 ^ 53)) with 54.
    replace (Z.max (54 + e - 53) (-1074) - e) with 1 by lia.
    reflexivity.
  - unfold shr_fexp. rewrite fexp_eq.
    assert (Hd : Zdigits2 m <= 53) by (apply Zdigits2_le; lia).
    rewrite shr_nonpos by lia. reflexivity.
Qed.

Lemma rne_top a b : 0 <= a -> 0 < b -> a < 2 ^ 53 * b -> 0 <= rne a b <= 2 ^ 53.
Proof.
  intros Ha Hb Hlt. pose proof (rne_bounds a b Hb).
  assert (0 <= a / b) by (apply Z.div_pos; lia).
  assert (a / b < 2 ^ 53) by (apply Z.div_lt_upper_bound; lia).
  lia.
Qed.

Section Round.
Variables (a b e : Z).
Hypotheses (Ha : 0 <= a) (Hb : 0 < b) (Hn : 0 <= shift_of a b e).

Lemma shifted_lt : a < 2 ^ 53 * (2 ^ shift_of a b e * b).
Proof.
  assert (Hq : 0 <= a / b) by (apply Z.div_pos; lia).
  pose proof (Zdigits2_nonneg _ Hq) as Hd.
  assert (Hqd : a / b < 2 ^ Zdigits2 (a / b)).
  { destruct (Z.eq_dec (a / b) 0) as [->|Hne]; [cbn; lia|].
    apply Zdigits2_bounds. lia. }
  assert (Hdn : Zdigits2 (a / b) <= 53 + shift_of a b e)
    by (unfold shift_of; rewrite fexp_eq; lia).
  set (n := shift_of a b e) in *.
  assert (2 ^ Zdigits2 (a / b) <= 2 ^ (53 + n)) by (apply Z.pow_le_mono_r; lia).
  rewrite Z.pow_add_r in * by lia.
  pose proof (Z.div_mod a b ltac:(lia)). pose proof (Z.mod_pos_bound a b Hb).
  nia.
Qed.

Lemma shifted_ge : -1074 < e + shift_of a b e -> 2 ^ 52 * (2 ^ shift_of a b e * b) <= a.
Proof.
  intros HE.
  assert (Hq : 0 <= a / b) by (apply Z.div_pos; lia).
  assert (Hdn : Zdigits2 (a / b) = 53 + shift_of a b e)
    by (unfold shift_of in *; rewrite fexp_eq in *; lia).
  set (n := shift_of a b e) in *.
  assert (Hpos : 0 < a / b).
  { destruct (Z.eq_dec (a / b) 0) as [E|E]; [|lia].
    rewrite E in Hdn. change (Zdigits2 0) with 0 in Hdn. lia. }
  destruct (Zdigits2_bounds _ Hpos) as [Hlo _].
  rewrite Hdn in Hlo. replace (53 + n - 1) with (52 + n) in Hlo by lia.
  rewrite Z.pow_add_r in Hlo by lia.
  pose proof (Z.div_mod a b ltac:(lia)). pose proof (Z.mod_pos_bound a b Hb).
  nia.
Qed.

(** [binary_round_aux] rounds the shifted fraction to the nearest even
    integer. *)
Lemma binary_round_aux_rne s :
  binary_round_aux prec emax s (a / b) e (loc_of a b)
  = SFrenorm s (rne a (2 ^ shift_of a b e * b)) (e + shift_of a b e).
Proof.
  unfold binary_round_aux, shr_fexp at 1. fold (rec_of a b). fold (shift_of a b e).
  rewrite shr_rec_of by assumption.
  assert (HB : 0 < 2 ^ shift_of a b e * b)
    by (apply Z.mul_pos_pos; [apply Z.pow_pos_nonneg|]; lia).
  rewrite rne_rec_of by exact HB.
  apply second_shift.
  - apply rne_top; [assumption|exact HB|apply shifted_lt].
  - unfold shift_of. rewrite fexp_eq. lia.
Qed.
End Round.

(** *** The order of the results *)

Lemma SFleb_opp (x y : spec_float) : SFleb (SFopp x) (SFopp y) = SFleb y x.
Proof.
  unfold SFleb, SFcompare.
  destruct x as [sx|sx| |sx mx ex], y as [sy|sy| |sy my ey]; cbn [SFopp];
    try reflexivity;
    repeat match goal with s : bool |- _ => destruct s end; cbn [negb]; try reflexivity.
  all: rewrite ?Pos.compare_cont_spec by reflexivity; cbn [Pos.switch_Eq].
  all: rewrite (Z.compare_antisym ex ey), (Pos.compare_antisym mx my).
  all: destruct (ex ?= ey); cbn [CompOpp]; try reflexivity.
  all: destruct (mx ?= my)%positive; reflexivity.
Qed.

Lemma SFmake_opp s m e : SFmake (negb s) m e = SFopp (SFmake s m e).
Proof. unfold SFmake. destruct m; [reflexivity| |reflexivity]. now destruct (e <=? emax - prec). Qed.

Lemma SFrenorm_opp s m e : SFrenorm (negb s) m e = SFopp (SFrenorm s m e).
Proof. unfold SFrenorm. destruct (m =? 2 ^ 53); apply SFmake_opp. Qed.

Lemma SFmake_le M1 X1 M2 X2 :
  0 <= M1 -> 0 <= M2 ->
  M1 = 0 \/ (0 < M2 /\ (X1 < X2 \/ (X1 = X2 /\ M1 <= M2))) ->
  SFleb (SFmake false M1 X1) (SFmake false M2 X2) = true.
Proof.
  intros H1 H2 H. unfold SFmake.
  destruct M1 as [|p1|p1]; [|destruct M2 as [|p2|p2]|]; try lia.
  - destruct M2 as [|p2|p2]; [reflexivity| |lia]. now destruct (X2 <=? emax - prec).
  - destruct (Z.leb_spec X1 (emax - prec)), (Z.leb_spec X2 (emax - prec));
      try reflexivity; [|lia].
    unfold SFleb, SFcompare. rewrite Pos.compare_cont_spec by reflexivity. cbn [Pos.switch_Eq].
    destruct (Z.compare_spec X1 X2); try reflexivity; try lia.
    destruct (Pos.compare_spec p1 p2); try reflexivity; lia.
Qed.

Lemma SFrenorm_le m1 E1 m2 E2 :
  0 <= m1 <= 2 ^ 53 -> 0 <= m2 <= 2 ^ 53 ->
  (E1 = E2 /\ m1 <= m2) \/ (E1 < E2 /\ 2 ^ 52 <= m2) ->
  SFleb (SFrenorm false m1 E1) (SFrenorm false m2 E2) = true.
Proof.
  intros H1 H2 H. unfold SFrenorm.
  destruct (Z.eqb_spec m1 (2 ^ 53)), (Z.eqb_spec m2 (2 ^ 53)); apply SFmake_le; lia.
Qed.

(** The results of a rounding, by sign. *)
Lemma SFrenorm_shape s m e :
  0 <= m ->
  SFrenorm s m e = S754_zero s \/ SFrenorm s m e = S754_infinity s
  \/ exists p x, SFrenorm s m e = S754_finite s p x.
Proof.
  intros Hm. unfold SFrenorm, SFmake.
  destruct (m =? 2 ^ 53).
  - change (2 ^ 52) with (Z.pos (2 ^ 52)%positive).
    destruct (e + 1 <=? emax - prec); eauto.
  - destruct m as [|p|p]; [auto| |lia]. destruct (e <=? emax - prec); eauto.
Qed.

(** *** The value of a double, as a real number *)


Lemma bpow_pos e : (0 < bpow e)%R.
Proof. apply powerRZ_lt. lra. Qed.

Lemma bpow_add e1 e2 : bpow (e1 + e2) = (bpow e1 * bpow e2)%R.
Proof. apply powerRZ_add. lra. Qed.

Lemma bpow_IZR k : 0 <= k -> bpow k = IZR (2 ^ k).
Proof.
  intros Hk. unfold bpow. destruct k as [|p|p]; [reflexivity| |lia].
  change (2 ^ Z.pos p) with (Z.pow_pos 2 p). now rewrite Zpower_pos_powerRZ.
Qed.

Lemma bpow_le e1 e2 : e1 <= e2 -> (bpow e1 <= bpow e2)%R.
Proof.
  intros Hle. replace e2 with (e1 + (e2 - e1)) by lia. rewrite bpow_add.
  assert (1 <= bpow (e2 - e1))%R.
  { rewrite bpow_IZR by lia. apply IZR_le.
    assert (0 < 2 ^ (e2 - e1)) by (apply Z.pow_pos_nonneg; lia). lia. }
  pose proof (bpow_pos e1). nra.
Qed.


Lemma fvalue_shift a b e n : 0 < b -> 0 <= n -> fvalue a (2 ^ n * b) (e + n) = fvalue a b e.
Proof.
  intros Hb Hn. unfold fvalue. rewrite bpow_add, mult_IZR, <- bpow_IZR by exact Hn.
  pose proof (bpow_pos n). assert (0 < IZR b)%R by (apply IZR_lt; exact Hb).
  field. split; lra.
Qed.

Lemma cross_le a1 b1 a2 b2 :
  0 < b1 -> 0 < b2 -> (IZR a1 / IZR b1 <= IZR a2 / IZR b2)%R -> a1 * b2 <= a2 * b1.
Proof.
  intros H1 H2 H. apply le_IZR. rewrite !mult_IZR.
  assert (0 < IZR b1)%R by (apply IZR_lt; exact H1).
  assert (0 < IZR b2)%R by (apply IZR_lt; exact H2).
  replace (IZR a1 * IZR b2)%R with (IZR a1 / IZR b1 * (IZR b1 * IZR b2))%R by (field; lra).
  replace (IZR a2 * IZR b1)%R with (IZR a2 / IZR b2 * (IZR b1 * IZR b2))%R by (field; lra).
  apply Rmult_le_compat_r; [nra|exact H].
Qed.

Lemma frac_ge k a b : 0 < b -> k * b <= a -> (IZR k <= IZR a / IZR b)%R.
Proof.
  intros Hb H. assert (0 < IZR b)%R by (apply IZR_lt; exact Hb).
  apply IZR_le in H. rewrite mult_IZR in H.
  apply Rmult_le_reg_r with (IZR b); [assumption|].
  replace (IZR a / IZR b * IZR b)%R with (IZR a) by (field; lra). exact H.
Qed.

Lemma frac_lt k a b : 0 < b -> a < k * b -> (IZR a / IZR b < IZR k)%R.
Proof.
  intros Hb H. assert (0 < IZR b)%R by (apply IZR_lt; exact Hb).
  apply IZR_lt in H. rewrite mult_IZR in H.
  apply Rmult_lt_reg_r with (IZR b); [assumption|].
  replace (IZR a / IZR b * IZR b)%R with (IZR a) by (field; lra). exact H.
Qed.


(** Rounding to nearest even is monotone in the value. *)
Lemma rounded_mono a1 b1 e1 a2 b2 e2 :
  shifted a1 b1 e1 -> shifted a2 b2 e2 ->
  (fvalue a1 b1 e1 <= fvalue a2 b2 e2)%R ->
  SFleb (SFrenorm false (rne a1 b1) e1) (SFrenorm false (rne a2 b2) e2) = true.
Proof.
  intros (Ha1 & Hb1 & He1 & Hlt1 & Hge1) (Ha2 & Hb2 & He2 & Hlt2 & Hge2) Hv.
  pose proof (rne_top _ _ Ha1 Hb1 Hlt1) as T1. pose proof (rne_top _ _ Ha2 Hb2 Hlt2) as T2.
  apply SFrenorm_le; try assumption.
  destruct (Z.lt_trichotomy e1 e2) as [Hlt|[Heq|Hgt]].
  - right. split; [exact Hlt|].
    rewrite <- (rne_exact (2 ^ 52) _ Hb2). apply rne_mono; try assumption.
    specialize (Hge2 ltac:(lia)). nia.
  - left. split; [exact Heq|]. subst e2. apply rne_mono; try assumption.
    apply cross_le; try assumption. unfold fvalue in Hv.
    pose proof (bpow_pos e1). apply Rmult_le_reg_r with (bpow e1); assumption.
  - exfalso. specialize (Hge1 ltac:(lia)).
    pose proof (frac_ge (2 ^ 52) a1 b1 Hb1 Hge1) as G1.
    pose proof (frac_lt (2 ^ 53) a2 b2 Hb2 Hlt2) as G2.
    pose proof (bpow_le (e2 + 1) e1 ltac:(lia)) as Hb. rewrite bpow_add in Hb.
    replace (bpow 1) with 2%R in Hb by (unfold bpow; simpl; lra).
    pose proof (bpow_pos e1). pose proof (bpow_pos e2). unfold fvalue in Hv.
    change (2 ^ 52) with 4503599627370496 in G1. change (2 ^ 53) with 9007199254740992 in G2.
    nra.
Qed.

(** *** Valid doubles and their order *)

Lemma bounded_spec m e :
  bounded prec emax m e = true ->
  -1074 <= e <= 971 /\ Zdigits2 (Z.pos m) <= 53 /\ (e = -1074 \/ Zdigits2 (Z.pos m) = 53).
Proof.
  unfold bounded, canonical_mantissa. intros H. apply andb_prop in H as [H1 H2].
  apply Z.eqb_eq in H1. apply Z.leb_le in H2. rewrite fexp_eq in H1.
  change (emax - prec) with 971 in H2. cbn [Zdigits2]. lia.
Qed.

Lemma mantissa_lt m e : bounded prec emax m e = true -> Z.pos m < 2 ^ 53.
Proof.
  intros H. destruct (bounded_spec _ _ H) as (_ & Hd & _).
  destruct (Zdigits2_bounds (Z.pos m) ltac:(lia)) as [_ Hhi].
  assert (2 ^ Zdigits2 (Z.pos m) <= 2 ^ 53) by (apply Z.pow_le_mono_r; lia). lia.
Qed.

Lemma mantissa_ge m e : bounded prec emax m e = true -> -1074 < e -> 2 ^ 52 <= Z.pos m.
Proof.
  intros H He. destruct (bounded_spec _ _ H) as (_ & _ & Hd).
  destruct (Zdigits2_bounds (Z.pos m) ltac:(lia)) as [Hlo _].
  destruct Hd as [Hd|Hd]; [lia|]. rewrite Hd in Hlo. exact Hlo.
Qed.

(** The order of two positive doubles is the order of their values. *)
Lemma SFleb_value m1 e1 m2 e2 :
  bounded prec emax m1 e1 = true -> bounded prec emax m2 e2 = true ->
  SFleb (S754_finite false m1 e1) (S754_finite false m2 e2) = true ->
  (IZR (Z.pos m1) * bpow e1 <= IZR (Z.pos m2) * bpow e2)%R.
Proof.
  intros H1 H2. unfold SFleb, SFcompare.
  rewrite Pos.compare_cont_spec by reflexivity. cbn [Pos.switch_Eq].
  destruct (Z.compare_spec e1 e2) as [Heq|Hlt|Hgt]; [| |discriminate].
  - subst e2. destruct (Pos.compare_spec m1 m2) as [E|L|G]; try discriminate; intros _.
    + subst. lra.
    + pose proof (bpow_pos e1). apply Rmult_le_compat_r; [lra|]. apply IZR_le. lia.
  - intros _.
    pose proof (mantissa_lt _ _ H1) as Hm1.
    destruct (bounded_spec _ _ H1) as (He1 & _).
    pose proof (mantissa_ge _ _ H2 ltac:(lia)) as Hm2.
    apply IZR_lt in Hm1. apply IZR_le in Hm2.
    change (2 ^ 53) with 9007199254740992 in Hm1. change (2 ^ 52) with 4503599627370496 in Hm2.
    pose proof (bpow_le (e1 + 1) e2 ltac:(lia)) as Hb. rewrite bpow_add in Hb.
    replace (bpow 1) with 2%R in Hb by (unfold bpow; simpl; lra).
    pose proof (bpow_pos e1). pose proof (bpow_pos e2). nra.
Qed.

(** *** Operations that scale a double by a positive constant *)




Section Scaling.
Variables (kappa : R) (T : positive -> Z -> Z * Z * Z).
Hypotheses (kappa_pos : (0 < kappa)%R) (T_scales : scales kappa T).

Lemma round_of_rne s m e :
  bounded prec emax m e = true ->
  exists a b E, shifted a b E
    /\ fvalue a b E = (kappa * (IZR (Z.pos m) * bpow e))%R
    /\ round_of s (T m e) = SFrenorm s (rne a b) E.
Proof.
  intros Hb. specialize (T_scales m e Hb). destruct (T m e) as [[a b] e'].
  destruct T_scales as (Ha & Hb' & Hn & Hv).
  exists a, (2 ^ shift_of a b e' * b), (e' + shift_of a b e'). split; [|split].
  - assert (0 < 2 ^ shift_of a b e') by (apply Z.pow_pos_nonneg; lia).
    repeat split; try lia.
    + unfold shift_of. rewrite fexp_eq. lia.
    + apply shifted_lt; assumption.
    + apply shifted_ge; assumption.
  - rewrite fvalue_shift by assumption. exact Hv.
  - cbn [round_of]. apply binary_round_aux_rne; assumption.
Qed.

Lemma round_of_shape s m e :
  bounded prec emax m e = true ->
  round_of s (T m e) = S754_zero s \/ round_of s (T m e) = S754_infinity s
  \/ exists p x, round_of s (T m e) = S754_finite s p x.
Proof.
  intros Hb. destruct (round_of_rne s m e Hb) as (a & b & E & Hs & _ & ->).
  apply SFrenorm_shape. destruct Hs as (Ha & Hb' & _ & Hlt & _).
  apply (rne_top a b Ha Hb' Hlt).
Qed.

Lemma round_of_mono m1 e1 m2 e2 :
  bounded prec emax m1 e1 = true -> bounded prec emax m2 e2 = true ->
  SFleb (S754_finite false m1 e1) (S754_finite false m2 e2) = true ->
  SFleb (round_of false (T m1 e1)) (round_of false (T m2 e2)) = true.
Proof.
  intros H1 H2 Hle.
  destruct (round_of_rne false m1 e1 H1) as (a1 & b1 & E1 & Hs1 & Hv1 & ->).
  destruct (round_of_rne false m2 e2 H2) as (a2 & b2 & E2 & Hs2 & Hv2 & ->).
  apply rounded_mono; try assumption. rewrite Hv1, Hv2.
  apply Rmult_le_compat_l; [lra|]. apply SFleb_value; assumption.
Qed.

Lemma round_of_opp s m e : round_of (negb s) (T m e) = SFopp (round_of s (T m e)).
Proof.
  unfold round_of. destruct (T m e) as [[a b] e'].
  unfold binary_round_aux.
  destruct (shr_fexp prec emax (a / b) e' (loc_of a b)) as [mrs1 x1].
  destruct (shr_fexp prec emax _ x1 loc_Exact) as [mrs2 x2].
  destruct (shr_m mrs2); [reflexivity| |reflexivity].
  now destruct (x2 <=? emax - prec).
Qed.

(** A scaling by a positive constant is monotone. *)
Lemma scaled_mono x y :
  valid_binary x = true -> valid_binary y = true ->
  SFleb x y = true -> SFleb (scaled T x) (scaled T y) = true.
Proof.
  intros Hx Hy Hle.
  destruct x as [sx|sx| |sx mx ex], y as [sy|sy| |sy my ey]; cbn [scaled];
    try discriminate; try exact Hle.
  - (* zero, finite *)
    cbn [valid_binary] in Hy. destruct sy; [discriminate|].
    destruct (round_of_shape false my ey Hy) as [->|[->|(p & x & ->)]]; reflexivity.
  - (* infinity, finite *)
    destruct sx; [|discriminate]. cbn [valid_binary] in Hy.
    destruct (round_of_shape sy my ey Hy) as [->|[->|(p & x & ->)]]; destruct sy; reflexivity.
  - (* finite, zero *)
    cbn [valid_binary] in Hx. destruct sx; [|discriminate].
    destruct (round_of_shape true mx ex Hx) as [->|[->|(p & x & ->)]]; reflexivity.
  - (* finite, infinity *)
    destruct sy; [destruct sx; discriminate|]. cbn [valid_binary] in Hx.
    destruct (round_of_shape sx mx ex Hx) as [->|[->|(p & x & ->)]]; destruct sx; reflexivity.
  - (* finite, finite *)
    cbn [valid_binary] in Hx, Hy. destruct sx, sy.
    + change true with (negb false). rewrite !round_of_opp, SFleb_opp.
      apply round_of_mono; try assumption.
      change (S754_finite true mx ex) with (SFopp (S754_finite false mx ex)) in Hle.
      change (S754_finite true my ey) with (SFopp (S754_finite false my ey)) in Hle.
      now rewrite SFleb_opp in Hle.
    + destruct (round_of_shape true mx ex Hx) as [->|[->|(p & x & ->)]],
               (round_of_shape false my ey Hy) as [->|[->|(q & z & ->)]]; reflexivity.
    + discriminate.
    + apply round_of_mono; assumption.
Qed.
End Scaling.

(** *** Multiplication and division by a positive double *)



Lemma Zdigits2_mul p q :
  Zdigits2 (Z.pos p) + Zdigits2 (Z.pos q) - 1 <= Zdigits2 (Z.pos (p * q)).
Proof.
  destruct (Zdigits2_bounds (Z.pos p) ltac:(lia)) as [Hp _].
  destruct (Zdigits2_bounds (Z.pos q) ltac:(lia)) as [Hq _].
  pose proof (Zdigits2_nonneg (Z.pos p) ltac:(lia)).
  pose proof (Zdigits2_nonneg (Z.pos q) ltac:(lia)).
  assert (0 < Zdigits2 (Z.pos p)) by (cbn; lia).
  assert (0 < Zdigits2 (Z.pos q)) by (cbn; lia).
  assert (Hpq : 2 ^ (Zdigits2 (Z.pos p) - 1 + (Zdigits2 (Z.pos q) - 1)) <= Z.pos (p * q)).
  { rewrite Z.pow_add_r by lia. rewrite Pos2Z.inj_mul.
    apply Z.mul_le_mono_nonneg; try assumption; apply Z.pow_nonneg; lia. }
  apply Zdigits2_gt in Hpq; lia.
Qed.

Lemma mul_fraction_scales mc ec :
  bounded prec emax mc ec = true ->
  scales (IZR (Z.pos mc) * bpow ec) (mul_fraction mc ec).
Proof.
  intros Hc m e Hm. unfold mul_fraction.
  destruct (bounded_spec _ _ Hc) as (Hec & Hdc & Hc').
  destruct (bounded_spec _ _ Hm) as (He & Hdm & Hm').
  pose proof (Zdigits2_mul mc m) as Hd.
  assert (0 < Zdigits2 (Z.pos mc)) by (cbn; lia).
  assert (0 < Zdigits2 (Z.pos m)) by (cbn; lia).
  unfold shift_of. rewrite Z.div_1_r, fexp_eq.
  repeat split; try lia.
  unfold fvalue. rewrite Pos2Z.inj_mul, mult_IZR, bpow_add. field.
Qed.

Lemma SFmul_scaled mc ec x :
  SF64mul (S754_finite false mc ec) x = scaled (mul_fraction mc ec) x.
Proof.
  destruct x as [s|s| |s m e]; try reflexivity.
  cbn [SF64mul SFmul scaled round_of mul_fraction xorb].
  unfold SF64mul, SFmul. cbn [xorb]. unfold loc_of. now rewrite Z.div_1_r, Z.mod_1_r.
Qed.

Lemma SFmul_comm x y : SF64mul x y = SF64mul y x.
Proof.
  unfold SF64mul, SFmul.
  destruct x as [sx|sx| |sx mx ex], y as [sy|sy| |sy my ey];
    rewrite ?(xorb_comm sx sy), ?(Pos.mul_comm mx my), ?(Z.add_comm ex ey); reflexivity.
Qed.

Lemma new_location_loc_of a b : 0 < b -> new_location b (a mod b) = loc_of a b.
Proof.
  intros Hb. pose proof (Z.mod_pos_bound a b Hb) as Hr.
  unfold new_location, new_location_even, new_location_odd, loc_of.
  destruct (Z.even b) eqn:Heven; [reflexivity|].
  destruct (a mod b =? 0); [reflexivity|]. f_equal.
  assert (Hodd : Z.odd b = true) by (rewrite <- Z.negb_even, Heven; reflexivity).
  apply Z.odd_spec in Hodd as [k Hk].
  destruct (Z.compare_spec (2 * (a mod b) + 1) b), (Z.compare_spec (2 * (a mod b)) b);
    try reflexivity; lia.
Qed.

Lemma SFdiv_core_fraction m e mv ev :
  SFdiv_core_binary prec emax (Z.pos m) e (Z.pos mv) ev
  = let '(a, b, e') := div_fraction mv ev m e in (a / b, e', loc_of a b).
Proof.
  unfold SFdiv_core_binary, div_fraction.
  set (e' := Z.min _ (e - ev)).
  assert (Hs : 0 <= e - ev - e') by (unfold e'; lia).
  assert (Hm' : match e - ev - e' with
                | Z0 => Z.pos m
                | Zpos _ => Z.shiftl (Z.pos m) (e - ev - e')
                | Zneg _ => 0
                end = Z.pos m * 2 ^ (e - ev - e')).
  { destruct (e - ev - e') as [|p|p] eqn:E; [lia| |lia].
    now rewrite Z.shiftl_mul_pow2 by lia. }
  rewrite Hm'. set (a := Z.pos m * 2 ^ (e - ev - e')).
  change (IntDef.Z.div_eucl a (Z.pos mv)) with (Z.div_eucl a (Z.pos mv)).
  pose proof (new_location_loc_of a (Z.pos mv) ltac:(lia)) as Hloc.
  unfold Z.modulo in Hloc. unfold Z.div.
  destruct (Z.div_eucl a (Z.pos mv)) as [q r]. now rewrite Hloc.
Qed.

Lemma div_fraction_scales mv ev :
  bounded prec emax mv ev = true ->
  scales (/ (IZR (Z.pos mv) * bpow ev)) (div_fraction mv ev).
Proof.
  intros Hv m e Hm. unfold div_fraction.
  set (dm := Zdigits2 (Z.pos m)). set (dv := Zdigits2 (Z.pos mv)).
  set (e' := Z.min _ (e - ev)). set (s := e - ev - e').
  assert (Hs : 0 <= s) by (unfold s, e'; lia).
  assert (H2s : 0 < 2 ^ s) by (apply Z.pow_pos_nonneg; lia).
  destruct (Zdigits2_bounds (Z.pos m) ltac:(lia)) as [Hmlo _].
  destruct (Zdigits2_bounds (Z.pos mv) ltac:(lia)) as [_ Hvhi].
  fold dm in Hmlo. fold dv in Hvhi.
  assert (Hdm : 0 < dm) by (unfold dm; cbn; lia).
  assert (Hdv : 0 < dv) by (unfold dv; cbn; lia).
  assert (Hq : 0 <= Z.pos m * 2 ^ s / Z.pos mv) by (apply Z.div_pos; lia).
  repeat split; try lia.
  - (* the quotient has digits enough *)
    unfold shift_of. rewrite fexp_eq. destruct (Z_le_gt_dec e' (-1074)) as [Hle|Hgt]; [lia|].
    assert (He' : e' <= dm + e - (dv + ev) - 53)
      by (unfold e' in *; rewrite fexp_eq in *; lia).
    assert (Hq52 : 2 ^ 52 <= Z.pos m * 2 ^ s / Z.pos mv).
    { apply Z.div_le_lower_bound; [lia|].
      assert (2 ^ (52 + dv) <= 2 ^ (dm - 1 + s)) by (apply Z.pow_le_mono_r; unfold s; lia).
      rewrite !Z.pow_add_r in * by lia.
      assert (2 ^ (dm - 1) * 2 ^ s <= Z.pos m * 2 ^ s)
        by (apply Z.mul_le_mono_nonneg_r; lia).
      assert (Z.pos mv * 2 ^ 52 <= 2 ^ dv * 2 ^ 52)
        by (apply Z.mul_le_mono_nonneg_r; lia).
      lia. }
    apply Zdigits2_gt in Hq52; lia.
  - (* the fvalue *)
    unfold fvalue. rewrite mult_IZR, <- bpow_IZR by exact Hs.
    assert (Hb1 : bpow (e - ev) = (bpow s * bpow e')%R)
      by (rewrite <- bpow_add; f_equal; unfold s; lia).
    assert (Hb2 : bpow e = (bpow (e - ev) * bpow ev)%R)
      by (rewrite <- bpow_add; f_equal; lia).
    rewrite Hb2, Hb1.
    pose proof (bpow_pos ev). assert (0 < IZR (Z.pos mv))%R by (apply IZR_lt; lia).
    field. split; lra.
Qed.

Lemma SFdiv_scaled mv ev x :
  SF64div x (S754_finite false mv ev) = scaled (div_fraction mv ev) x.
Proof.
  destruct x as [s|s| |s m e]; try (destruct s; reflexivity); try reflexivity.
  unfold SF64div, SFdiv. rewrite SFdiv_core_fraction, xorb_false_r.
  cbn [scaled round_of]. now destruct (div_fraction mv ev m e) as [[a b] e'].
Qed.

(** *** Monotonicity, on the primitive doubles *)

Lemma Prim2SF_positive_finite (c : float) :
  (0 <? c)%float = true -> (c <? infinity)%float = true ->
  exists m e, Prim2SF c = S754_finite false m e /\ bounded prec emax m e = true.
Proof.
  rewrite !ltb_spec. intros H0 Hinf. pose proof (Prim2SF_valid c) as Hv.
  change (Prim2SF 0) with (S754_zero false) in H0.
  change (Prim2SF infinity) with (S754_infinity false) in Hinf.
  destruct (Prim2SF c) as [s|s| |s m e]; try discriminate.
  - destruct s; discriminate.
  - destruct s; [discriminate|]. eauto.
Qed.

(** Multiplying by a positive finite double, on either side, and dividing by
    one keep the order. *)
Lemma mul_mono_l (c x y : float) :
  (0 <? c)%float = true -> (c <? infinity)%float = true ->
  (x <=? y)%float = true -> (c * x <=? c * y)%float = true.
Proof.
  intros H0 Hinf. destruct (Prim2SF_positive_finite c H0 Hinf) as (m & e & Hc & Hb).
  rewrite !leb_spec, !mul_spec, Hc, !SFmul_scaled.
  apply scaled_mono with (kappa := (IZR (Z.pos m) * bpow e)%R);
    try apply Prim2SF_valid.
  - pose proof (bpow_pos e). assert (0 < IZR (Z.pos m))%R by (apply IZR_lt; lia). nra.
  - apply mul_fraction_scales, Hb.
Qed.

Lemma mul_mono_r (c x y : float) :
  (0 <? c)%float = true -> (c <? infinity)%float = true ->
  (x <=? y)%float = true -> (x * c <=? y * c)%float = true.
Proof.
  intros H0 Hinf Hle. pose proof (mul_mono_l c x y H0 Hinf Hle) as H.
  rewrite leb_spec, !mul_spec in *. now rewrite (SFmul_comm (Prim2SF x)), (SFmul_comm (Prim2SF y)).
Qed.

Lemma div_mono (c x y : float) :
  (0 <? c)%float = true -> (c <? infinity)%float = true ->
  (x <=? y)%float = true -> (x / c <=? y / c)%float = true.
Proof.
  intros H0 Hinf. destruct (Prim2SF_positive_finite c H0 Hinf) as (m & e & Hc & Hb).
  rewrite !leb_spec, !div_spec, Hc, !SFdiv_scaled.
  apply scaled_mono with (kappa := (/ (IZR (Z.pos m) * bpow e))%R);
    try apply Prim2SF_valid.
  - pose proof (bpow_pos e). assert (0 < IZR (Z.pos m))%R by (apply IZR_lt; lia).
    apply Rinv_0_lt_compat. nra.
  - apply div_fraction_scales, Hb.
Qed.

End Rounding.

(** ** Voltage drop and circuit length (binary64) *)

Section Length.
Local Open Scope js_scope.

(** [a < b] gives [a <= b]. *)
Lemma SFltb_leb (a b : spec_float) : SFltb a b = true -> SFleb a b = true.
Proof. unfold SFltb, SFleb. destruct (SFcompare a b) as [[]|]; intros; try discriminate; reflexivity. Qed.

Lemma ltb_leb (a b : float) : (a <? b) = true -> (a <=? b) = true.
Proof. cbn [nleb nltb binary64]. rewrite leb_spec, ltb_spec. apply SFltb_leb. Qed.

(** The constant factors of the drop are positive and finite. *)
Lemma drop_constants :
  positiveFinite (ofQ 2) = true /\ positiveFinite (nsqrt (ofQ 3 : float)) = true
  /\ positiveFinite (ofQ 1000) = true /\ positiveFinite (ofQ 100) = true.
Proof. vm_compute. repeat split. Qed.

Lemma drop_resistances :
  forallb (fun c : CableData.t float =>
             positiveFinite (CableData.resistance c)
             && positiveFinite (CableData.resistance c * ofQ 1.6)) CABLE_TABLE = true.
Proof. vm_compute. reflexivity. Qed.

Lemma positiveFinite_spec (x : float) :
  positiveFinite x = true -> (0 <? x)%float = true /\ (x <? infinity)%float = true.
Proof. unfold positiveFinite. intros H. apply andb_prop in H. exact H. Qed.

(** Multiplying or dividing by a positive finite double is monotone. *)
Lemma positiveFinite_mono (c x y : float) :
  positiveFinite c = true -> (x <=? y) = true ->
  (c * x <=? c * y) = true /\ (x * c <=? y * c) = true /\ (x / c <=? y / c) = true.
Proof.
  intros Hc Hxy. destruct (positiveFinite_spec c Hc) as [H0 Hinf].
  cbn [nleb nmul ndiv binary64] in *.
  repeat split; [apply mul_mono_l|apply mul_mono_r|apply div_mono]; assumption.
Qed.

(** The design current does not depend on the length. *)
Lemma Ib_withLength {F} `{JSNumber F} (input : CalcInput.t F) (length' : F) :
  Ib (withLength input length') = Ib input.
Proof. destruct input. reflexivity. Qed.

(** On a given cable the drop and its percentage grow with the length. *)
Lemma calculateVD_monotone (input : CalcInput.t float) (length' : float)
    (cable : CableData.t float) :
  positiveFinite (CalcInput.voltage input) = true ->
  positiveFinite (Ib input) = true ->
  (CalcInput.length input <=? length') = true ->
  In cable CABLE_TABLE ->
  (VD.dV (calculateVD input cable) <=? VD.dV (calculateVD (withLength input length') cable))
  = true
  /\ (VD.dVPercent (calculateVD input cable)
      <=? VD.dVPercent (calculateVD (withLength input length') cable)) = true.
Proof.
  intros Hv HI Hlen Hin.
  destruct drop_constants as (H2 & H3 & H1000 & H100).
  pose proof drop_resistances as HR. rewrite forallb_forall in HR.
  specialize (HR cable Hin). apply andb_prop in HR as [HR HR16].
  unfold calculateVD. rewrite Ib_withLength.
  set (I := Ib input) in *. clearbody I.
  destruct input as [st v p pf lt len m t g mat ins bc icn br].
  cbn [withLength CalcInput.length CalcInput.voltage CalcInput.material
       CalcInput.systemType VD.dV VD.dVPercent] in *.
  set (Rc := if Material_eqb mat aluminio then CableData.resistance cable * ofQ 1.6
             else CableData.resistance cable).
  assert (HRc : positiveFinite Rc = true) by (subst Rc; destruct (Material_eqb mat aluminio); assumption).
  clearbody Rc.
  set (k := if SystemType_eqb st trifasico then nsqrt (ofQ 3) else (ofQ 2 : float)).
  assert (Hk : positiveFinite k = true) by (subst k; destruct (SystemType_eqb st trifasico); assumption).
  assert (Hd : (k * len * I * Rc / ofQ 1000 <=? k * length' * I * Rc / ofQ 1000) = true).
  { apply positiveFinite_mono; [exact H1000|]. apply positiveFinite_mono; [exact HRc|].
    apply positiveFinite_mono; [exact HI|]. apply positiveFinite_mono; [exact Hk|exact Hlen]. }
  assert (Hd' : ((if SystemType_eqb st trifasico
                  then nsqrt (ofQ 3) * len * I * Rc / ofQ 1000
                  else ofQ 2 * len * I * Rc / ofQ 1000)
                 <=? (if SystemType_eqb st trifasico
                      then nsqrt (ofQ 3) * length' * I * Rc / ofQ 1000
                      else ofQ 2 * length' * I * Rc / ofQ 1000)) = true).
  { subst k. destruct (SystemType_eqb st trifasico); exact Hd. }
  split; [exact Hd'|].
  apply positiveFinite_mono; [exact H100|]. apply positiveFinite_mono; [exact Hv|exact Hd'].
Qed.


(** The sections of the table identify its cables. *)
Lemma CABLE_TABLE_sections (c c' : CableData.t float) :
  In c CABLE_TABLE -> In c' CABLE_TABLE ->
  CableData.section c = CableData.section c' -> c = c'.
Proof.
  intros Hc Hc' Hs. cbn [In CABLE_TABLE] in Hc, Hc'.
  repeat (destruct Hc as [<-|Hc]; [|]); try contradiction;
  repeat (destruct Hc' as [<-|Hc']; [|]); try contradiction;
  try reflexivity;
  exfalso; apply (f_equal Prim2SF) in Hs; vm_compute in Hs; discriminate Hs.
Qed.

(** C2 (as amended).  For a supply of positive finite voltage and a design
    current that is positive and finite, and two inputs identical except that
    the second has a strictly greater circuit length: on every cable of the
    table the voltage drop and its percentage computed by [calculateVD] for
    the second input are greater than or equal to those for the first;
    [calculateElectrical] returns for both, and when it selects the same
    section for both, the voltage drop and the percentage it returns for the
    second are greater than or equal to those for the first.  (When the
    longer circuit makes the loop move to a larger section, nothing is said:
    the drop returned can be smaller.) *)
Theorem voltage_drop_monotone_same_cable (input : CalcInput.t float) (length' : float) :
  (ofQ 0 <? CalcInput.voltage input) = true -> (CalcInput.voltage input <? infinity) = true ->
  (ofQ 0 <? Ib input) = true -> (Ib input <? infinity) = true ->
  (CalcInput.length input <? length') = true ->
  (forall cable, In cable CABLE_TABLE ->
     (VD.dV (calculateVD input cable)
      <=? VD.dV (calculateVD (withLength input length') cable)) = true
     /\ (VD.dVPercent (calculateVD input cable)
         <=? VD.dVPercent (calculateVD (withLength input length') cable)) = true)
  /\ exists r r' : CalcResult.t float,
       calculateElectrical input = Return r
       /\ calculateElectrical (withLength input length') = Return r'
       /\ (CalcResult.cableSection r = CalcResult.cableSection r' ->
           (CalcResult.voltageDrop r <=? CalcResult.voltageDrop r') = true
           /\ (CalcResult.voltageDropPercent r <=? CalcResult.voltageDropPercent r') = true).
Proof.
  intros Hv0 Hv HI0 HI Hlen.
  assert (Hvolt : positiveFinite (CalcInput.voltage input) = true)
    by (unfold positiveFinite; now rewrite Hv0, Hv).
  assert (Hcur : positiveFinite (Ib input) = true)
    by (unfold positiveFinite; now rewrite HI0, HI).
  apply ltb_leb in Hlen. split.
  - intros cable Hin. apply calculateVD_monotone; assumption.
  - destruct (calculateElectrical_returns input) as (j & k & c0 & c & _ & _ & Hs & Hrun).
    destruct (calculateElectrical_returns (withLength input length'))
      as (j' & k' & c0' & c' & _ & _ & Hs' & Hrun').
    eexists. eexists. split; [exact Hrun|]. split; [exact Hrun'|].
    apply settled_In in Hs, Hs'.
    replace (CalcResult.cableSection (sizeRest input c _ _)) with (CableData.section c)
      by (destruct input; reflexivity).
    replace (CalcResult.cableSection (sizeRest (withLength input length') c' _ _))
      with (CableData.section c') by (destruct input; reflexivity).
    intros Hsec. pose proof (CABLE_TABLE_sections c c' Hs Hs' Hsec) as <-.
    replace (CalcResult.voltageDrop (sizeRest input c _ _))
      with (VD.dV (calculateVD input c)) by (destruct input; reflexivity).
    replace (CalcResult.voltageDropPercent (sizeRest input c _ _))
      with (VD.dVPercent (calculateVD input c)) by (destruct input; reflexivity).
    replace (CalcResult.voltageDrop (sizeRest (withLength input length') c _ _))
      with (VD.dV (calculateVD (withLength input length') c)) by (destruct input; reflexivity).
    replace (CalcResult.voltageDropPercent (sizeRest (withLength input length') c _ _))
      with (VD.dVPercent (calculateVD (withLength input length') c))
      by (destruct input; reflexivity).
    apply calculateVD_monotone; assumption.
Qed.

(** Scenario A at 20 m and at 22 m meets the hypotheses of C2 as amended: the
    1.5 mm2 cable is selected at both lengths. *)
Lemma voltage_drop_monotone_scenarioA :
  exists r r' : CalcResult.t float,
    calculateElectrical scenarioA = Return r
    /\ calculateElectrical (withLength scenarioA (ofQ 22)) = Return r'
    /\ CalcResult.cableSection r = CalcResult.cableSection r'
    /\ (CalcResult.voltageDrop r <=? CalcResult.voltageDrop r') = true
    /\ (CalcResult.voltageDropPercent r <=? CalcResult.voltageDropPercent r') = true.
Proof.
  destruct (voltage_drop_monotone_same_cable scenarioA (ofQ 22))
    as (_ & r & r' & Hr & Hr' & Hsame); try (vm_compute; reflexivity).
  exists r, r'. split; [exact Hr|]. split; [exact Hr'|].
  assert (Hsec : CalcResult.cableSection r = CalcResult.cableSection r').
  { vm_compute in Hr, Hr'. injection Hr as <-. injection Hr' as <-. reflexivity. }
  split; [exact Hsec|]. exact (Hsame Hsec).
Defined.

End Length.

(** ** Comparisons in exact arithmetic *)

Section Exact.
Local Open Scope R_scope.

Lemma Rleb_true (x y : R) : x <= y -> Rleb x y = true.
Proof. intros. unfold Rleb. destruct (Rle_dec x y); [reflexivity|contradiction]. Qed.

Lemma Rleb_false (x y : R) : y < x -> Rleb x y = false.
Proof. intros. unfold Rleb. destruct (Rle_dec x y); [lra|reflexivity]. Qed.

Lemma Rltb_true (x y : R) : x < y -> Rltb x y = true.
Proof. intros. unfold Rltb. destruct (Rlt_dec x y); [reflexivity|contradiction]. Qed.


Lemma Reqb_true (x y : R) : x = y -> Reqb x y = true.
Proof. intros. unfold Reqb. destruct (Req_dec_T x y); [reflexivity|contradiction]. Qed.

Lemma Reqb_false (x y : R) : x <> y -> Reqb x y = false.
Proof. intros. unfold Reqb. destruct (Req_dec_T x y); [contradiction|reflexivity]. Qed.

End Exact.

(** * More properties of the code *)

(** ** The conductor engine, for every number system *)

Section EngineMore.
Context {F : Type} `{JSNumber F}.
Local Open Scope js_scope.

Lemma nth_CABLE_TABLE_last (c : CableData.t F) :
  nth_error CABLE_TABLE 11 = Some c -> CableData.section c = ofQ 120.
Proof. intros [= <-]. reflexivity. Qed.

Lemma sizeRest_fields (input : CalcInput.t F) (c : CableData.t F) (vd : VD.t F) (Iz : F) :
  let r := sizeRest input c vd Iz in
  CalcResult.cableSection r = CableData.section c
  /\ CalcResult.izCorrected r = Iz
  /\ CalcResult.voltageDrop r = VD.dV vd
  /\ CalcResult.voltageDropPercent r = VD.dVPercent vd
  /\ CalcResult.shortCircuitCurrent r
     = estimateShortCircuit (CalcInput.voltage input) (CalcInput.length input)
         (CableData.section c)
  /\ CalcResult.isIcnConform r
     = (CalcInput.breakerIcn input * ofQ 1000 >=? CalcResult.shortCircuitCurrent r)
  /\ CalcResult.isConform r
     = (VD.dVPercent vd <=? limit input) && (CalcInput.breakerRating input <=? Iz)
       && CalcResult.isIcnConform r
  /\ CalcResult.neutralSection r
     = neutralSectionOf (CalcInput.systemType input) (CableData.section c)
  /\ CalcResult.earthSection r = earthSectionOf (CableData.section c)
  /\ CalcResult.conduitSize r
     = conduitSizeOf (totalAreaOf (CalcInput.systemType input) (CableData.section c)
                        (CalcResult.neutralSection r) (CalcResult.earthSection r)).
Proof. destruct input. cbv zeta. repeat split; reflexivity. Qed.

(** The notes of a result, kind by kind. *)
Lemma sizeRest_notes (input : CalcInput.t F) (c : CableData.t F) (vd : VD.t F) (Iz : F) :
  let r := sizeRest input c vd Iz in
  existsb isVoltageDropNote (CalcResult.notes r) = (VD.dVPercent vd >? limit input)
  /\ existsb isBreakerAboveIzNote (CalcResult.notes r) = (CalcInput.breakerRating input >? Iz)
  /\ existsb isBreakerBelowIbNote (CalcResult.notes r)
     = (CalcInput.breakerRating input <? Ib input)
  /\ existsb isIcnNote (CalcResult.notes r) = negb (CalcResult.isIcnConform r)
  /\ existsb isHighCurrentNote (CalcResult.notes r) = (Ib input >? ofQ 100)
  /\ existsb isMotorCurveBNote (CalcResult.notes r)
     = LoadType_eqb (CalcInput.loadType input) motor
       && BreakerCurve_eqb (CalcInput.breakerCurve input) CurveB
  /\ existsb isLightingCurveDNote (CalcResult.notes r)
     = LoadType_eqb (CalcInput.loadType input) iluminacao
       && BreakerCurve_eqb (CalcInput.breakerCurve input) CurveD
  /\ existsb isSocketCurveBNote (CalcResult.notes r)
     = LoadType_eqb (CalcInput.loadType input) tomadas
       && BreakerCurve_eqb (CalcInput.breakerCurve input) CurveB.
Proof.
  destruct input as [st v p pf lt len m t g mat ins bc icn br].
  cbv zeta. unfold sizeRest.
  cbn [CalcResult.notes CalcResult.isIcnConform CalcInput.breakerRating CalcInput.loadType
       CalcInput.breakerCurve].
  unfold push_if, curveNote.
  set (I := Ib _). set (l := limit _).
  destruct (VD.dVPercent vd >? l), (br >? Iz), (br <? I), (I >? ofQ 100),
    (icn * ofQ 1000 >=? estimateShortCircuit v len (CableData.section c));
    destruct lt, bc; cbn; repeat split; reflexivity.
Qed.


(** X2.  A voltage drop above the limit is returned only on the largest
    section of the table, 120 mm2, and then with its note: the loop gives up
    on nothing smaller. *)
Theorem drop_above_limit_only_on_largest (input : CalcInput.t F) :
  exists r : CalcResult.t F,
    calculateElectrical input = Return r
    /\ existsb isVoltageDropNote (CalcResult.notes r)
       = (CalcResult.voltageDropPercent r >? limit input)
    /\ ((CalcResult.voltageDropPercent r >? limit input) = true ->
        CalcResult.cableSection r = ofQ 120).
Proof.
  destruct (calculateElectrical_returns input)
    as (j & k & c0 & c & _ & _ & (_ & Hk & _ & Hend) & Hrun).
  eexists. split; [exact Hrun|].
  destruct (sizeRest_fields input c (calculateVD input c) (getIz input c))
    as (Hsec & _ & _ & Hpct & _).
  rewrite Hpct, Hsec. split; [apply sizeRest_notes|].
  intros Hvd. destruct Hend as [Hok| ->].
  - rewrite Hok in Hvd. discriminate.
  - apply nth_CABLE_TABLE_last, Hk.
Qed.

(** X3.  When no cable of the table has a corrected ampacity at or above the
    proposed breaker rating, the engine still returns: the largest section,
    120 mm2, with [isConform] false. *)
Theorem exhausted_table (input : CalcInput.t F) :
  (forall cable, In cable CABLE_TABLE ->
     (getIz input cable >=? CalcInput.breakerRating input) = false) ->
  exists r : CalcResult.t F,
    calculateElectrical input = Return r
    /\ CalcResult.cableSection r = ofQ 120
    /\ (CalcResult.izCorrected r >=? CalcInput.breakerRating input) = false
    /\ CalcResult.isConform r = false.
Proof.
  intros Hnone.
  destruct (calculateElectrical_returns input)
    as (j & k & c0 & c & Hfit & _ & (Hjk & Hk & _ & _) & Hrun).
  eexists. split; [exact Hrun|].
  destruct (sizeRest_fields input c (calculateVD input c) (getIz input c))
    as (Hsec & HIz & _ & _ & _ & _ & Hconf & _).
  assert (Hin : In c CABLE_TABLE) by (eapply nth_error_In; eassumption).
  assert (j = 11)%nat.
  { destruct Hfit as [Hj [[Hc0 _]|[-> _]]]; [|reflexivity].
    rewrite (Hnone c0) in Hc0; [discriminate|eapply nth_error_In; eassumption]. }
  pose proof (nth_CABLE_TABLE_lt _ _ Hk).
  assert (k = 11)%nat by lia. subst k.
  rewrite Hsec, HIz, Hconf, (Hnone c Hin).
  split; [apply nth_CABLE_TABLE_last, Hk|]. split; [reflexivity|].
  rewrite andb_false_r. reflexivity.
Qed.

(** X4.  Each diagnostic note is pushed exactly when its condition holds on
    the values returned: the drop note when the percent drop exceeds the
    limit, the overload note when the breaker rating exceeds the corrected
    ampacity, the tripping note when the breaker rating is below the design
    current, the short-circuit note when [isIcnConform] is false, and the
    high-current note when the design current exceeds 100 A. *)
Theorem notes_follow_conditions (input : CalcInput.t F) :
  exists r : CalcResult.t F,
    calculateElectrical input = Return r
    /\ existsb isVoltageDropNote (CalcResult.notes r)
       = (CalcResult.voltageDropPercent r >? limit input)
    /\ existsb isBreakerAboveIzNote (CalcResult.notes r)
       = (CalcResult.breakerRating r >? CalcResult.izCorrected r)
    /\ existsb isBreakerBelowIbNote (CalcResult.notes r)
       = (CalcResult.breakerRating r <? CalcResult.current r)
    /\ existsb isIcnNote (CalcResult.notes r) = negb (CalcResult.isIcnConform r)
    /\ existsb isHighCurrentNote (CalcResult.notes r) = (CalcResult.current r >? ofQ 100).
Proof.
  destruct (calculateElectrical_returns input) as (j & k & c0 & c & _ & _ & _ & Hrun).
  eexists. split; [exact Hrun|].
  destruct (sizeRest_notes input c (calculateVD input c) (getIz input c))
    as (H1 & H2 & H3 & H4 & H5 & _).
  destruct (sizeRest_fields input c (calculateVD input c) (getIz input c))
    as (_ & HIz & _ & Hpct & _).
  rewrite Hpct, HIz.
  replace (CalcResult.breakerRating _) with (CalcInput.breakerRating input)
    by (destruct input; reflexivity).
  replace (CalcResult.current _) with (Ib input) by (destruct input; reflexivity).
  auto.
Qed.

(** X5.  The trip-curve advice: the note for motors is pushed exactly for a
    motor load on a curve B breaker, the note for lighting exactly for a
    lighting load on curve D, the note for sockets exactly for a socket load
    on curve B; a feeder load gets none, and no result carries two of them. *)
Theorem curve_advice (input : CalcInput.t F) :
  exists r : CalcResult.t F,
    calculateElectrical input = Return r
    /\ existsb isMotorCurveBNote (CalcResult.notes r)
       = match CalcInput.loadType input, CalcInput.breakerCurve input with
         | motor, CurveB => true
         | _, _ => false
         end
    /\ existsb isLightingCurveDNote (CalcResult.notes r)
       = match CalcInput.loadType input, CalcInput.breakerCurve input with
         | iluminacao, CurveD => true
         | _, _ => false
         end
    /\ existsb isSocketCurveBNote (CalcResult.notes r)
       = match CalcInput.loadType input, CalcInput.breakerCurve input with
         | tomadas, CurveB => true
         | _, _ => false
         end
    /\ (List.length (filter (fun n => isMotorCurveBNote n || isLightingCurveDNote n
                                      || isSocketCurveBNote n) (CalcResult.notes r))
        <= 1)%nat.
Proof.
  destruct (calculateElectrical_returns input) as (j & k & c0 & c & _ & _ & _ & Hrun).
  eexists. split; [exact Hrun|].
  destruct (sizeRest_notes input c (calculateVD input c) (getIz input c))
    as (_ & _ & _ & _ & _ & H6 & H7 & H8).
  rewrite H6, H7, H8.
  split; [|split; [|split]].
  1-3: destruct (CalcInput.loadType input), (CalcInput.breakerCurve input); reflexivity.
  destruct input as [st v p pf lt len m t g mat ins bc icn br].
  unfold sizeRest. cbn [CalcResult.notes]. unfold push_if, curveNote.
  set (I := Ib _). set (l := limit _).
  destruct (VD.dVPercent (calculateVD _ c) >? l), (br >? getIz _ c), (br <? I), (I >? ofQ 100),
    (icn * ofQ 1000 >=? estimateShortCircuit v len (CableData.section c));
    destruct lt, bc; cbn; lia.
Qed.

End EngineMore.

(** ** Totality and the fallbacks of the lookups *)

Section Fallbacks.
Context {F : Type} `{JSNumber F}.
Local Open Scope js_scope.

Lemma find_ext_in {A} (p q : A -> bool) (l : list A) :
  (forall x, In x l -> p x = q x) -> find p l = find q l.
Proof.
  induction l as [|a l IH]; intros Hpq; [reflexivity|]. cbn [find].
  rewrite (Hpq a) by (left; reflexivity).
  rewrite IH; [reflexivity|]. intros x Hx. apply Hpq. now right.
Qed.

(** Where the method is not in the capacity maps, [getIz] reads the B1
    capacity, as it does for the method B1 itself. *)
Lemma getIz_withMethod_B1 (input : CalcInput.t F) (cable : CableData.t F) :
  absent (CableData.capacity cable) (CalcInput.method input) ->
  getIz (withMethod input "B1") cable = getIz input cable.
Proof.
  intros [Hown Hproto]. destruct input as [st v p pf lt len m t g mat ins bc icn br].
  cbn [CalcInput.method] in *. unfold getIz, fTotal, ft, fg, fInsulation, fMaterial.
  cbn [withMethod CalcInput.method CalcInput.temp CalcInput.grouping CalcInput.insulation
       CalcInput.material].
  replace (get_prop (CableData.capacity cable) m) with (@Undefined F)
    by (unfold get_prop; now rewrite Hown, Hproto).
  unfold js_or. cbn [truthy].
  now destruct (truthy (get_prop (CableData.capacity cable) "B1")).
Qed.

Lemma withMethod_same (input : CalcInput.t F) (m : string) :
  (forall c, calculateVD (withMethod input m) c = calculateVD input c)
  /\ limit (withMethod input m) = limit input
  /\ CalcInput.breakerRating (withMethod input m) = CalcInput.breakerRating input
  /\ (forall c vd Iz, sizeRest (withMethod input m) c vd Iz = sizeRest input c vd Iz).
Proof. destruct input. repeat split; reflexivity. Qed.

(** The loop settles on one cable only. *)
Lemma settled_unique (input input' : CalcInput.t F) (j k k' : nat) (c c' : CableData.t F) :
  (forall c, calculateVD input' c = calculateVD input c) -> limit input' = limit input ->
  settled input j k c -> settled input' j k' c' -> k = k' /\ c = c'.
Proof.
  intros Hvd Hlim (Hjk & Hk & Hskip & Hend) (Hjk' & Hk' & Hskip' & Hend').
  pose proof (nth_CABLE_TABLE_lt _ _ Hk) as Hlt.
  pose proof (nth_CABLE_TABLE_lt _ _ Hk') as Hlt'.
  rewrite Hvd, Hlim in Hend'.
  assert (k = k').
  { destruct (Nat.lt_trichotomy k k') as [Hl|[He|Hg]]; [|exact He|].
    - specialize (Hskip' k c ltac:(lia) Hk). rewrite Hvd, Hlim in Hskip'.
      destruct Hend as [Hok|Hlast]; [congruence|lia].
    - specialize (Hskip k' c' ltac:(lia) Hk').
      destruct Hend' as [Hok|Hlast]; [congruence|lia]. }
  subst k'. split; [reflexivity|]. congruence.
Qed.


(** X29.  [calculateElectrical] is total: for every input it returns a result
    and throws nothing (no read of a field of [undefined], and the loop ends
    within the length of the table).  The corrected ampacity of the result is
    the capacity read for the method on the cable returned, times the four
    factors.  An ambient temperature that is not a key of TEMPERATURE_FACTORS,
    or a number of grouped circuits that is not a key of GROUPING_FACTORS,
    contributes the factor 1.0; and for an installation method that is
    neither a key of the capacity maps nor a name they inherit, the result is
    the result for the method B1. *)
Theorem calculateElectrical_total_and_fallbacks (input : CalcInput.t F) :
  exists (r : CalcResult.t F) (c : CableData.t F),
    calculateElectrical input = Return r
    /\ In c CABLE_TABLE
    /\ CalcResult.cableSection r = CableData.section c
    /\ CalcResult.izCorrected r
       = capacityFor (CalcInput.method input) c
         * (ft input * fg input * fInsulation input * fMaterial input)
    /\ ((forall k v, In (k, v) TEMPERATURE_FACTORS -> (CalcInput.temp input ===? k) = false) ->
        ft input = ofQ 1.0)
    /\ ((forall k v, In (k, v) GROUPING_FACTORS -> (CalcInput.grouping input ===? k) = false) ->
        fg input = ofQ 1.0)
    /\ ((forall cable, In cable CABLE_TABLE ->
           absent (CableData.capacity cable) (CalcInput.method input)) ->
        calculateElectrical (withMethod input "B1") = Return r).
Proof.
  destruct (calculateElectrical_returns input)
    as (j & k & c0 & c & Hfit & Hfind & Hs & Hrun).
  eexists. exists c. split; [exact Hrun|].
  pose proof (settled_In _ _ _ _ Hs) as Hin. split; [exact Hin|].
  destruct (sizeRest_fields input c (calculateVD input c) (getIz input c))
    as (Hsec & HIz & _).
  split; [exact Hsec|]. split; [exact HIz|]. split; [|split].
  - intros Habs. unfold ft. now rewrite (get_index_absent _ _ Habs).
  - intros Habs. unfold fg. now rewrite (get_index_absent _ _ Habs).
  - intros Habs.
    destruct (calculateElectrical_returns (withMethod input "B1"))
      as (j' & k' & c0' & c' & Hfit' & Hfind' & Hs' & Hrun').
    destruct (withMethod_same input "B1") as (Hvd & Hlim & Hbr & Hrest).
    assert (HIz' : forall cable, In cable CABLE_TABLE ->
                     getIz (withMethod input "B1") cable = getIz input cable).
    { intros cable Hc. apply getIz_withMethod_B1, Habs, Hc. }
    assert (Hj : j' = j).
    { assert (Hsame : findCable (withMethod input "B1") (CalcInput.breakerRating input)
                      = findCable input (CalcInput.breakerRating input)).
      { unfold findCable.
        rewrite (find_ext_in
                   (fun cable => getIz (withMethod input "B1") cable
                                 >=? CalcInput.breakerRating input)
                   (fun cable => getIz input cable >=? CalcInput.breakerRating input));
          [reflexivity|].
        intros x Hx. now rewrite HIz'. }
      rewrite Hbr, Hsame, Hfind in Hfind'. injection Hfind' as <-.
      pose proof (indexOf_nth _ _ (proj1 Hfit)) as H1.
      pose proof (indexOf_nth _ _ (proj1 Hfit')) as H2. lia. }
    subst j'.
    destruct (settled_unique input (withMethod input "B1") j k k' c c' Hvd Hlim Hs Hs')
      as [_ <-].
    rewrite Hrun', Hrest, Hvd, (HIz' c Hin). reflexivity.
Qed.

End Fallbacks.

Section FallbackRuns.
Local Open Scope js_scope.

(** The fallbacks at work: method A1, 33 degrees and 12 grouped circuits give
    neutral factors and the result of the method B1. *)
Lemma fallbacks_offTable :
  exists r : CalcResult.t float,
    calculateElectrical offTableInput = Return r
    /\ ft offTableInput = ofQ 1.0
    /\ fg offTableInput = ofQ 1.0
    /\ calculateElectrical (withMethod offTableInput "B1") = Return r
    /\ CalcResult.cableSection r = ofQ 1.5
    /\ CalcResult.izCorrected r = ofQ 17.5.
Proof.
  destruct (calculateElectrical_total_and_fallbacks offTableInput)
    as (r & c & Hr & Hin & Hsec & HIz & Hft & Hfg & Hcap).
  exists r. split; [exact Hr|]. split; [|split; [|split]].
  - apply Hft. intros k v Hk. simpl in Hk.
    repeat (destruct Hk as [[= <- <-]|Hk]; [vm_compute; reflexivity|]). destruct Hk.
  - apply Hfg. intros k v Hk. simpl in Hk.
    repeat (destruct Hk as [[= <- <-]|Hk]; [vm_compute; reflexivity|]). destruct Hk.
  - apply Hcap. intros cable Hc. simpl in Hc.
    repeat (destruct Hc as [<-|Hc]; [split; vm_compute; reflexivity|]). destruct Hc.
  - vm_compute in Hr. injection Hr as <-. split; reflexivity.
Defined.

End FallbackRuns.

(** ** The conductor engine in binary64 *)

Section EngineBinary64.
Local Open Scope js_scope.

Lemma SFleb_ltb (a b : spec_float) : SFleb a b = true -> SFltb b a = false.
Proof.
  unfold SFleb, SFltb, SFcompare.
  destruct a as [sa|sa| |sa ma ea], b as [sb|sb| |sb mb eb];
    try discriminate; try reflexivity;
    repeat match goal with s : bool |- _ => destruct s end;
    try discriminate; try reflexivity.
  all: rewrite ?Pos.compare_cont_spec by reflexivity; cbn [Pos.switch_Eq].
  all: fold (Pos.compare ma mb) (Pos.compare mb ma).
  all: rewrite (Z.compare_antisym ea eb), (Pos.compare_antisym ma mb).
  all: destruct (Z.compare ea eb); cbn; try discriminate; try reflexivity.
  all: destruct (Pos.compare ma mb); cbn; try discriminate; try reflexivity.
Qed.

(** [a <= b] excludes [b < a]. *)
Lemma leb_ltb (a b : float) : (a <=? b) = true -> (b <? a) = false.
Proof. cbn [nleb nltb binary64]. rewrite leb_spec, ltb_spec. apply SFleb_ltb. Qed.

(** The sections, neutral sections, earth sections and conduit sizes the
    engine can return, by evaluation over the table and the phase systems. *)
Lemma sizes_over_table :
  forallb (fun st => forallb (fun c : CableData.t float =>
      let s := CableData.section c in
      let n := neutralSectionOf st s in
      let e := earthSectionOf s in
      (* the neutral is the section, or half of it for three-phase above 25 *)
      PrimFloat.eqb n (if SystemType_eqb st trifasico && (s >? ofQ 25) then s / ofQ 2 else s)
      && (n <=? s) && (s / ofQ 2 <=? n)
      && (e <=? s)
      && ((s <? ofQ 16) || (ofQ 16 <=? e))
      && (totalAreaOf st s n e <=? ofQ 480)
      && match conduitSizeOf (totalAreaOf st s n e) with
         | Conduit_3_4 | Conduit_1 | Conduit_1_1_4 => true
         | Conduit_1_1_2 | Conduit_2 => false
         end) CABLE_TABLE) [monofasico; bifasico; trifasico] = true.
Proof. vm_compute. reflexivity. Qed.

Lemma sizes_of_result (input : CalcInput.t float) :
  exists (r : CalcResult.t float) (c : CableData.t float),
    calculateElectrical input = Return r
    /\ In c CABLE_TABLE
    /\ CalcResult.cableSection r = CableData.section c
    /\ CalcResult.neutralSection r
       = neutralSectionOf (CalcInput.systemType input) (CableData.section c)
    /\ CalcResult.earthSection r = earthSectionOf (CableData.section c)
    /\ CalcResult.conduitSize r
       = conduitSizeOf (totalAreaOf (CalcInput.systemType input) (CableData.section c)
                          (neutralSectionOf (CalcInput.systemType input) (CableData.section c))
                          (earthSectionOf (CableData.section c))).
Proof.
  destruct (calculateElectrical_returns input) as (j & k & c0 & c & _ & _ & Hs & Hrun).
  eexists. exists c. split; [exact Hrun|]. split; [exact (settled_In _ _ _ _ Hs)|].
  destruct (sizeRest_fields input c (calculateVD input c) (getIz input c))
    as (Hsec & _ & _ & _ & _ & _ & _ & Hn & He & Hc).
  rewrite Hc, Hn, He. auto.
Qed.

Ltac over_table input c Hin :=
  let Hall := fresh "Hall" in
  pose proof sizes_over_table as Hall;
  rewrite forallb_forall in Hall;
  specialize (Hall (CalcInput.systemType input));
  let Hst := fresh in
  assert (Hst : In (CalcInput.systemType input) [monofasico; bifasico; trifasico])
    by (destruct (CalcInput.systemType input); simpl; auto);
  specialize (Hall Hst); clear Hst;
  rewrite forallb_forall in Hall; specialize (Hall c Hin); cbv zeta in Hall;
  repeat (apply andb_prop in Hall; destruct Hall as [Hall ?]).

(** X6.  The conduit returned is never larger than 1 1/4 inch: with the
    sections of the table the total area is at most 480 mm2, so the
    thresholds 500 and 800 of the sizing are never exceeded. *)
Theorem conduit_at_most_1_1_4 (input : CalcInput.t float) :
  exists r : CalcResult.t float,
    calculateElectrical input = Return r
    /\ (CalcResult.conduitSize r = Conduit_3_4 \/ CalcResult.conduitSize r = Conduit_1
        \/ CalcResult.conduitSize r = Conduit_1_1_4)
    /\ (totalAreaOf (CalcInput.systemType input) (CalcResult.cableSection r)
          (CalcResult.neutralSection r) (CalcResult.earthSection r) <=? ofQ 480) = true.
Proof.
  destruct (sizes_of_result input) as (r & c & Hrun & Hin & Hsec & Hn & He & Hc).
  exists r. split; [exact Hrun|]. rewrite Hc, Hn, He, Hsec.
  over_table input c Hin. split; [|assumption].
  destruct (conduitSizeOf _); auto; discriminate.
Qed.

(** X7.  The neutral returned is the phase section, or exactly half of it
    for a three-phase circuit on a section above 25 mm2: the floor of 16 mm2
    never applies, since the smallest section above 25 is 35.  The neutral is
    thus never above the phase section and never below half of it. *)
Theorem neutral_sizing (input : CalcInput.t float) :
  exists r : CalcResult.t float,
    calculateElectrical input = Return r
    /\ (CalcResult.neutralSection r
        ===? (if SystemType_eqb (CalcInput.systemType input) trifasico
                 && (CalcResult.cableSection r >? ofQ 25)
              then CalcResult.cableSection r / ofQ 2
              else CalcResult.cableSection r)) = true
    /\ (CalcResult.neutralSection r <=? CalcResult.cableSection r) = true
    /\ (CalcResult.cableSection r / ofQ 2 <=? CalcResult.neutralSection r) = true.
Proof.
  destruct (sizes_of_result input) as (r & c & Hrun & Hin & Hsec & Hn & He & Hc).
  exists r. split; [exact Hrun|]. rewrite Hn, Hsec.
  over_table input c Hin. auto.
Qed.

(** X8.  The earth conductor returned is never above the phase section, and
    it is at least 16 mm2 as soon as the phase section is. *)
Theorem earth_sizing (input : CalcInput.t float) :
  exists r : CalcResult.t float,
    calculateElectrical input = Return r
    /\ (CalcResult.earthSection r <=? CalcResult.cableSection r) = true
    /\ ((ofQ 16 <=? CalcResult.cableSection r) = true ->
        (ofQ 16 <=? CalcResult.earthSection r) = true).
Proof.
  destruct (sizes_of_result input) as (r & c & Hrun & Hin & Hsec & Hn & He & Hc).
  exists r. split; [exact Hrun|]. rewrite He, Hsec.
  over_table input c Hin. repeat split; auto.
  intros H16.
  match goal with Hor : (_ || _) = true |- _ => apply orb_prop in Hor; destruct Hor as [Hlt|Hge] end.
  - pose proof (leb_ltb _ _ H16) as Hno. cbn [nltb binary64] in *. congruence.
  - exact Hge.
Qed.

(** X9.  A result with [isConform] true carries no drop note, no overload
    note and no short-circuit note.  (It can carry the tripping note: the
    flag does not compare the breaker rating with the design current.) *)
Theorem conform_result_has_no_danger_note (input : CalcInput.t float) :
  exists r : CalcResult.t float,
    calculateElectrical input = Return r
    /\ (CalcResult.isConform r = true ->
        existsb isVoltageDropNote (CalcResult.notes r) = false
        /\ existsb isBreakerAboveIzNote (CalcResult.notes r) = false
        /\ existsb isIcnNote (CalcResult.notes r) = false).
Proof.
  destruct (calculateElectrical_returns input) as (j & k & c0 & c & _ & _ & _ & Hrun).
  eexists. split; [exact Hrun|].
  destruct (sizeRest_notes input c (calculateVD input c) (getIz input c))
    as (H1 & H2 & _ & H4 & _).
  destruct (sizeRest_fields input c (calculateVD input c) (getIz input c))
    as (_ & _ & _ & _ & _ & _ & Hconf & _).
  rewrite H1, H2, H4, Hconf. intros Hc.
  apply andb_prop in Hc. destruct Hc as [Hc Hicn].
  apply andb_prop in Hc. destruct Hc as [Hvd HIz].
  rewrite Hicn. repeat split; auto using leb_ltb.
Qed.

End EngineBinary64.

(** ** Edge inputs of the conductor engine (binary64) *)

Section EngineEdges.
Local Open Scope js_scope.

(** A proposed breaker of 1000 A meets the hypothesis of X3. *)
Lemma exhausted_table_breaker1000A :
  exists r : CalcResult.t float,
    calculateElectrical breaker1000A = Return r
    /\ CalcResult.cableSection r = ofQ 120
    /\ (CalcResult.izCorrected r >=? CalcInput.breakerRating breaker1000A) = false
    /\ CalcResult.isConform r = false.
Proof.
  apply (exhausted_table breaker1000A).
  intros cable Hin. simpl in Hin.
  repeat (destruct Hin as [<-|Hin]; [vm_compute; reflexivity|]). destruct Hin.
Defined.

(** A double that [=== 0] is one of the two zeros. *)
Lemma eqb_zero (x : float) : (x ===? ofQ 0) = true -> x = zero \/ x = neg_zero.
Proof.
  cbn [neqb binary64]. change (ofQ 0 : float) with zero. rewrite FloatAxioms.eqb_spec.
  change (Prim2SF zero) with (S754_zero false).
  destruct (Prim2SF x) as [s|s| |s m e] eqn:E; try discriminate; try (destruct s; discriminate).
  intros _. destruct s; [right|left]; apply Prim2SF_inj; rewrite E; reflexivity.
Qed.

(** Any double that is not NaN is at or above -Infinity. *)
Lemma neg_infinity_leb (x : float) : (x <? infinity) = true -> (neg_infinity <=? x) = true.
Proof.
  cbn [nleb nltb binary64]. rewrite leb_spec, ltb_spec.
  change (Prim2SF infinity) with (S754_infinity false).
  change (Prim2SF neg_infinity) with (S754_infinity true).
  destruct (Prim2SF x) as [s|s| |s m e]; try discriminate; try reflexivity.
  destruct s; reflexivity.
Qed.

(** X10.  A circuit whose length [=== 0] on a positive voltage, with a
    breaker of finite interrupting capacity.  The length is +0 or -0.  At +0
    the estimated short-circuit current is Infinity, so [isIcnConform] and
    [isConform] are false and the short-circuit note is pushed, whatever the
    other inputs.  At -0 the estimate is -Infinity: [isIcnConform] is true and
    no short-circuit note is pushed. *)
Theorem zero_length_fault_current (input : CalcInput.t float) :
  (CalcInput.length input ===? ofQ 0) = true ->
  (CalcInput.voltage input >? ofQ 0) = true ->
  (CalcInput.breakerIcn input * ofQ 1000 <? infinity) = true ->
  exists r : CalcResult.t float,
    calculateElectrical input = Return r
    /\ (CalcInput.length input = zero
        /\ CalcResult.shortCircuitCurrent r = infinity
        /\ CalcResult.isIcnConform r = false
        /\ CalcResult.isConform r = false
        /\ existsb isIcnNote (CalcResult.notes r) = true
        \/ CalcInput.length input = neg_zero
           /\ CalcResult.shortCircuitCurrent r = neg_infinity
           /\ CalcResult.isIcnConform r = true
           /\ existsb isIcnNote (CalcResult.notes r) = false).
Proof.
  intros Hlen Hv Hicn.
  destruct (calculateElectrical_returns input) as (j & k & c0 & c & _ & _ & _ & Hrun).
  eexists. split; [exact Hrun|].
  destruct (sizeRest_notes input c (calculateVD input c) (getIz input c))
    as (_ & _ & _ & H4 & _).
  destruct (sizeRest_fields input c (calculateVD input c) (getIz input c))
    as (_ & _ & _ & _ & HIsc & HicnC & Hconf & _).
  destruct (eqb_zero _ Hlen) as [Hz|Hz]; [left|right]; (split; [exact Hz|]).
  - assert (Hinf : CalcResult.shortCircuitCurrent
                     (sizeRest input c (calculateVD input c) (getIz input c)) = infinity).
    { rewrite HIsc, Hz. unfold estimateShortCircuit.
      change zero with (ofQ 0 : float). rewrite scaled_resistance_zero.
      apply (div_zero (CalcInput.voltage input)). exact Hv. }
    assert (Hno : CalcResult.isIcnConform
                    (sizeRest input c (calculateVD input c) (getIz input c)) = false).
    { rewrite HicnC, Hinf.
      destruct (CalcInput.breakerIcn input * ofQ 1000 >=? infinity) eqn:E; [|reflexivity].
      apply leb_ltb in E. cbn [nltb nmul binary64] in *. congruence. }
    rewrite H4, Hconf, Hno, andb_false_r. auto.
  - assert (Hinf : CalcResult.shortCircuitCurrent
                     (sizeRest input c (calculateVD input c) (getIz input c))
                   = neg_infinity).
    { rewrite HIsc, Hz. unfold estimateShortCircuit.
      rewrite scaled_resistance_neg_zero.
      apply (div_neg_zero (CalcInput.voltage input)). exact Hv. }
    assert (Hyes : CalcResult.isIcnConform
                     (sizeRest input c (calculateVD input c) (getIz input c)) = true).
    { rewrite HicnC, Hinf. apply neg_infinity_leb, Hicn. }
    rewrite H4, Hyes. auto.
Qed.

(** Scenario A at the lengths +0 and -0: at -0 the result is even conform. *)
Lemma zero_length_scenarioA :
  (exists r : CalcResult.t float,
     calculateElectrical scenarioA_zeroLength = Return r
     /\ CalcResult.shortCircuitCurrent r = infinity
     /\ CalcResult.isIcnConform r = false
     /\ CalcResult.isConform r = false
     /\ existsb isIcnNote (CalcResult.notes r) = true)
  /\ (exists r : CalcResult.t float,
        calculateElectrical scenarioA_negZeroLength = Return r
        /\ CalcResult.shortCircuitCurrent r = neg_infinity
        /\ CalcResult.isIcnConform r = true
        /\ existsb isIcnNote (CalcResult.notes r) = false
        /\ CalcResult.isConform r = true).
Proof.
  split.
  - destruct (zero_length_fault_current scenarioA_zeroLength) as (r & Hr & [H|H]);
      try (vm_compute; reflexivity).
    + exists r. split; [exact Hr|]. apply H.
    + exfalso. destruct H as [H _]. apply (f_equal Prim2SF) in H. vm_compute in H.
      discriminate H.
  - destruct (zero_length_fault_current scenarioA_negZeroLength) as (r & Hr & [H|H]);
      try (vm_compute; reflexivity).
    + exfalso. destruct H as [H _]. apply (f_equal Prim2SF) in H. vm_compute in H.
      discriminate H.
    + exists r. split; [exact Hr|]. destruct H as (_ & H1 & H2 & H3).
      repeat split; try assumption.
      vm_compute in Hr. injection Hr as <-. reflexivity.
Defined.

Lemma withBreakerRating_same {F} `{JSNumber F} (input : CalcInput.t F) (b : F) :
  (forall c, getIz (withBreakerRating input b) c = getIz input c)
  /\ (forall c, calculateVD (withBreakerRating input b) c = calculateVD input c)
  /\ limit (withBreakerRating input b) = limit input
  /\ CalcInput.breakerRating (withBreakerRating input b) = b.
Proof. destruct input. repeat split; reflexivity. Qed.

Lemma CABLE_TABLE_sections_ascending :
  ascending (map (@CableData.section float) CABLE_TABLE) = true
  /\ forallb (fun c : CableData.t float => CableData.section c <=? CableData.section c)
       CABLE_TABLE = true.
Proof. vm_compute. split; reflexivity. Qed.

Lemma sections_ascending (k k' : nat) (c c' : CableData.t float) :
  (k <= k')%nat -> nth_error CABLE_TABLE k = Some c -> nth_error CABLE_TABLE k' = Some c' ->
  (CableData.section c <=? CableData.section c') = true.
Proof.
  intros Hkk Hk Hk'. destruct CABLE_TABLE_sections_ascending as [Hasc Hrefl].
  destruct (Nat.eq_dec k k') as [->|Hne].
  - rewrite Hk in Hk'. injection Hk' as <-. rewrite forallb_forall in Hrefl.
    apply Hrefl. eapply nth_error_In; eassumption.
  - apply (ascending_nth _ Hasc k k'); [lia| |].
    + now rewrite nth_error_map, Hk.
    + now rewrite nth_error_map, Hk'.
Qed.

(** X11.  A larger proposed breaker never gives a smaller cable: for two
    inputs identical except that the second has a breaker rating at or above
    that of the first, the section returned for the second is at or above the
    section returned for the first. *)
Theorem larger_breaker_no_smaller_cable (input : CalcInput.t float) (breakerRating' : float) :
  (CalcInput.breakerRating input <=? breakerRating') = true ->
  exists r r' : CalcResult.t float,
    calculateElectrical input = Return r
    /\ calculateElectrical (withBreakerRating input breakerRating') = Return r'
    /\ (CalcResult.cableSection r <=? CalcResult.cableSection r') = true.
Proof.
  intros Hb.
  destruct (calculateElectrical_returns input)
    as (j & k & c0 & c & Hfit & _ & (Hjk & Hk & Hskip & Hend) & Hrun).
  destruct (calculateElectrical_returns (withBreakerRating input breakerRating'))
    as (j' & k' & c0' & c' & Hfit' & _ & (Hjk' & Hk' & Hskip' & Hend') & Hrun').
  destruct (withBreakerRating_same input breakerRating') as (HIz & Hvd & Hlim & Hbr).
  eexists. eexists. split; [exact Hrun|]. split; [exact Hrun'|].
  destruct (sizeRest_fields input c (calculateVD input c) (getIz input c)) as (-> & _).
  destruct (sizeRest_fields (withBreakerRating input breakerRating') c'
              (calculateVD (withBreakerRating input breakerRating') c')
              (getIz (withBreakerRating input breakerRating') c')) as (-> & _).
  pose proof (nth_CABLE_TABLE_lt _ _ Hk) as Hk12.
  pose proof (nth_CABLE_TABLE_lt _ _ Hk') as Hk12'.
  (* the first fit moves forward *)
  assert (Hj : (j <= j')%nat).
  { destruct (Nat.le_gt_cases j j') as [|Hlt]; [assumption|exfalso].
    destruct Hfit' as [Hj' Hcase']. rewrite Hbr in Hcase'.
    assert (Hfail : (getIz input c0' >=? CalcInput.breakerRating input) = false).
    { destruct Hfit as [_ [[_ Hbefore]|[_ Hnone]]].
      - exact (Hbefore j' c0' Hlt Hj').
      - apply Hnone. eapply nth_error_In; eassumption. }
    destruct Hcase' as [[Hfits _]|[-> _]]; [|lia].
    rewrite HIz in Hfits.
    rewrite (leb_trans _ _ _ Hb Hfits) in Hfail. discriminate. }
  (* and so does the cable the loop settles on *)
  assert (Hkk : (k <= k')%nat).
  { destruct (Nat.le_gt_cases k k') as [|Hlt]; [assumption|exfalso].
    pose proof (Hskip k' c' ltac:(lia) Hk') as Hover.
    rewrite Hvd, Hlim in Hend'. destruct Hend' as [Hok|Hlast]; [congruence|lia]. }
  exact (sections_ascending k k' c c' Hkk Hk Hk').
Qed.

Lemma larger_breaker_scenarioA :
  exists r r' : CalcResult.t float,
    calculateElectrical scenarioA = Return r
    /\ calculateElectrical (withBreakerRating scenarioA (ofQ 32)) = Return r'
    /\ (CalcResult.cableSection r <=? CalcResult.cableSection r') = true.
Proof.
  apply (larger_breaker_no_smaller_cable scenarioA (ofQ 32)). vm_compute. reflexivity.
Defined.

End EngineEdges.

(** ** The fault current of a result (binary64) *)

Section FaultCurrent.
Local Open Scope js_scope.

Lemma resistanceOrOne_of_table (c : CableData.t float) :
  In c CABLE_TABLE -> resistanceOrOne (CableData.section c) = CableData.resistance c.
Proof.
  intros Hin. simpl in Hin.
  repeat (destruct Hin as [<-|Hin]; [vm_compute; reflexivity|]). destruct Hin.
Qed.

(** X28.  The short-circuit current of a result is the voltage divided by
    the resistance of the selected cable itself over the length: the default
    of 1 Ohm/km is never used by the engine, and the table resistance is
    taken as it is, without the factor 1.6 that the voltage drop applies to
    aluminium. *)
Theorem fault_current_of_selected_cable (input : CalcInput.t float) :
  exists (r : CalcResult.t float) (c : CableData.t float),
    calculateElectrical input = Return r
    /\ In c CABLE_TABLE
    /\ CalcResult.cableSection r = CableData.section c
    /\ CalcResult.shortCircuitCurrent r
       = CalcInput.voltage input
         / (CableData.resistance c * (CalcInput.length input / ofQ 1000))
    /\ CalcResult.voltageDrop r = VD.dV (calculateVD input c).
Proof.
  destruct (calculateElectrical_returns input) as (j & k & c0 & c & _ & _ & Hs & Hrun).
  eexists. exists c. split; [exact Hrun|].
  pose proof (settled_In _ _ _ _ Hs) as Hin. split; [exact Hin|].
  destruct (sizeRest_fields input c (calculateVD input c) (getIz input c))
    as (Hsec & _ & Hdv & _ & HIsc & _).
  rewrite Hsec, HIsc, Hdv. unfold estimateShortCircuit.
  rewrite (resistanceOrOne_of_table c Hin). auto.
Qed.

End FaultCurrent.

(** ** Rounding up to a standard rating (binary64) *)

Section Ratings.
Local Open Scope js_scope.

Lemma BREAKER_RATINGS_top :
  forallb (fun r : float => (r <=? ofQ 125) && (roundUpToRating r ===? r)) BREAKER_RATINGS
  = true.
Proof. vm_compute. reflexivity. Qed.

Lemma roundUpToRating_In (x : float) : In (roundUpToRating x) BREAKER_RATINGS.
Proof.
  destruct (roundUpToRating_spec x) as [Hfit Hnone].
  pose proof (find_first (fun r : float => r >=? x) BREAKER_RATINGS) as Hf.
  destruct (find (fun r : float => r >=? x) BREAKER_RATINGS) as [b|].
  - destruct Hf as (j & Hj & Hb & _). apply Hfit. exists b.
    split; [eapply nth_error_In; eassumption|exact Hb].
  - rewrite (Hnone Hf). simpl. do 13 right. left. reflexivity.
Qed.

(** X12.  Whatever the currents, NaN and Infinity included, the breaker
    [calculateMotor] returns and the main breaker and residual-device rating
    [calculateQDC] returns are elements of BREAKER_RATINGS. *)
Theorem breakers_are_standard_ratings :
  (forall input : MotorCalcInput.t float,
     In (MotorCalcResult.breaker (calculateMotor input)) BREAKER_RATINGS)
  /\ (forall (input : QDCCalcInput.t) (h : @Heap float),
        match heap_get h (QDCCalcInput.circuits input) with
        | Raise e => calculateQDC input h = Raise e
        | Return _ =>
            exists (r : QDCCalcResult.t float) (h' : @Heap float),
              calculateQDC input h = Return (r, h')
              /\ In (QDCCalcResult.mainBreaker r) BREAKER_RATINGS
              /\ QDCCalcResult.drRating r = QDCCalcResult.mainBreaker r
        end).
Proof.
  split.
  - intros input. rewrite calculateMotor_breaker_eq. apply roundUpToRating_In.
  - intros input h. unfold calculateQDC.
    destruct (heap_get h (QDCCalcInput.circuits input)) as [circuits|e]; [|reflexivity].
    cbn [bind]. eexists. eexists. split; [reflexivity|].
    cbn [QDCCalcResult.mainBreaker QDCCalcResult.drRating].
    split; [apply roundUpToRating_In|reflexivity].
Qed.

(** X13.  Rounding up is monotone: a larger current never gets a smaller
    rating. *)
Theorem roundUpToRating_monotone (x y : float) :
  (x <=? y) = true -> (roundUpToRating x <=? roundUpToRating y) = true.
Proof.
  intros Hxy.
  destruct (roundUpToRating_spec x) as [Hfitx Hnonex].
  destruct (roundUpToRating_spec y) as [Hfity Hnoney].
  pose proof (find_first (fun r : float => r >=? y) BREAKER_RATINGS) as Hf.
  destruct (find (fun r : float => r >=? y) BREAKER_RATINGS) as [b|].
  - destruct Hf as (j & Hj & Hb & _).
    assert (Hin : In b BREAKER_RATINGS) by (eapply nth_error_In; eassumption).
    destruct Hfity as (Hiny & Hgey & _); [exists b; auto|].
    destruct Hfitx as (_ & _ & Hmin).
    + exists b. split; [exact Hin|]. exact (leb_trans _ _ _ Hxy Hb).
    + apply Hmin; [exact Hiny|]. exact (leb_trans _ _ _ Hxy Hgey).
  - rewrite (Hnoney Hf).
    pose proof BREAKER_RATINGS_top as Htop. rewrite forallb_forall in Htop.
    destruct (andb_prop _ _ (Htop _ (roundUpToRating_In x))) as [Hle _]. exact Hle.
Qed.

Lemma roundUpToRating_monotone_8_12 :
  (roundUpToRating (ofQ 8 : float) <=? roundUpToRating (ofQ 12)) = true.
Proof. apply (roundUpToRating_monotone (ofQ 8) (ofQ 12)). vm_compute. reflexivity. Defined.

(** X14.  Rounding up is idempotent: a standard rating is rounded to itself,
    so rounding a rounded current changes nothing. *)
Theorem roundUpToRating_idempotent (x : float) :
  (roundUpToRating (roundUpToRating x) ===? roundUpToRating x) = true.
Proof.
  pose proof BREAKER_RATINGS_top as Htop. rewrite forallb_forall in Htop.
  destruct (andb_prop _ _ (Htop _ (roundUpToRating_In x))) as [_ Hid]. exact Hid.
Qed.

End Ratings.

(** ** [calculateQDC]: what the call does to the heap *)

Section QDCMore.
Context {F : Type} `{JSNumber F}.
Local Open Scope js_scope.

Lemma heap_get_set_other (h : Heap) (a b : nat) (arr : list (Circuit.t F)) :
  a <> b -> heap_get (heap_set h a arr) b = heap_get h b.
Proof.
  unfold heap_get. revert a b. induction h as [|x h IH]; intros [|a] [|b] Hab;
    cbn; try reflexivity; try congruence.
  apply IH. congruence.
Qed.

Lemma heap_set_length (h : Heap) (a : nat) (arr : list (Circuit.t F)) :
  List.length (heap_set h a arr) = List.length h.
Proof.
  revert a. induction h as [|x h IH]; intros [|a]; cbn; try reflexivity.
  now rewrite IH.
Qed.

(** X15.  [calculateQDC] throws when [input.circuits] is not an array of the
    heap, and otherwise returns; it then touches one array only, the
    caller's, which keeps its elements (in some order): every other array of
    the heap is as it was, and none is added or removed. *)
Theorem calculateQDC_frame (input : QDCCalcInput.t) (h : Heap) :
  match heap_get h (QDCCalcInput.circuits input) with
  | Raise e => calculateQDC input h = Raise e
  | Return circuits =>
      exists r h',
        calculateQDC input h = Return (r, h')
        /\ List.length h' = List.length h
        /\ (forall b, b <> QDCCalcInput.circuits input -> heap_get h' b = heap_get h b)
        /\ exists circuits',
             heap_get h' (QDCCalcInput.circuits input) = Return circuits'
             /\ Permutation circuits' circuits
  end.
Proof.
  unfold calculateQDC.
  destruct (heap_get h (QDCCalcInput.circuits input)) as [circuits|e] eqn:Hget;
    cbn [bind]; [|reflexivity].
  eexists. eexists. split; [reflexivity|].
  split; [apply heap_set_length|].
  split; [intros b Hb; apply heap_get_set_other; congruence|].
  eexists. split; [eapply heap_get_set; eassumption|].
  apply Array_sort_permutation.
Qed.

End QDCMore.

Section QDCBinary64.
Local Open Scope js_scope.

(** X16.  An empty panel is accepted: the total is 0, the main breaker is
    the smallest rating, 6 A, with a busbar of 7.5 A, the three phases carry
    0 A, and the (empty) array is left as it is. *)
Theorem calculateQDC_empty (input : QDCCalcInput.t) (h : @Heap float) :
  heap_get h (QDCCalcInput.circuits input) = Return [] ->
  exists r : QDCCalcResult.t float,
    calculateQDC input h = Return (r, h)
    /\ QDCCalcResult.totalCurrent r = ofQ 0
    /\ QDCCalcResult.mainBreaker r = ofQ 6
    /\ QDCCalcResult.busbarCurrent r = ofQ 7.5
    /\ QDCCalcResult.phaseBalance r
       = [PhaseLoad.mk "R" (ofQ 0); PhaseLoad.mk "S" (ofQ 0); PhaseLoad.mk "T" (ofQ 0)].
Proof.
  intros Hget. unfold calculateQDC. rewrite Hget. cbn [bind Array_sort fold_left distribute].
  assert (Hh : heap_set h (QDCCalcInput.circuits input) [] = h).
  { unfold heap_get in Hget. revert Hget. generalize (QDCCalcInput.circuits input).
    induction h as [|x h IH]; intros [|a]; cbn; try discriminate.
    - now intros [= ->].
    - intros Hget. f_equal. apply IH, Hget. }
  rewrite Hh. eexists. split; [reflexivity|].
  vm_compute. repeat split.
Qed.

Lemma calculateQDC_empty_panel :
  exists r : QDCCalcResult.t float,
    calculateQDC (QDCCalcInput.mk 0) [[]] = Return (r, [[]])
    /\ QDCCalcResult.totalCurrent r = ofQ 0
    /\ QDCCalcResult.mainBreaker r = ofQ 6
    /\ QDCCalcResult.busbarCurrent r = ofQ 7.5
    /\ QDCCalcResult.phaseBalance r
       = [PhaseLoad.mk "R" (ofQ 0); PhaseLoad.mk "S" (ofQ 0); PhaseLoad.mk "T" (ofQ 0)].
Proof.
  apply (calculateQDC_empty (QDCCalcInput.mk 0) [[]]). reflexivity.
Defined.

(** X17.  Because the first call sorts the caller's array, a second call on
    the same input can return another total: for circuits of 0.1, 0.2 and
    0.3 A the first call adds them in that order and returns
    0.6000000000000001, the second adds 0.3, 0.2, 0.1 and returns 0.6. *)
Theorem calculateQDC_second_call_differs :
  exists (r : QDCCalcResult.t float) (h' : @Heap float)
         (r' : QDCCalcResult.t float) (h'' : @Heap float),
    calculateQDC scenarioC smallCircuits = Return (r, h')
    /\ calculateQDC scenarioC h' = Return (r', h'')
    /\ h'' = h'
    /\ QDCCalcResult.totalCurrent r = 0.6000000000000001%float
    /\ QDCCalcResult.totalCurrent r' = 0.6%float
    /\ (QDCCalcResult.totalCurrent r ===? QDCCalcResult.totalCurrent r') = false.
Proof.
  eexists. eexists. eexists. eexists.
  split; [vm_compute; reflexivity|]. split; [vm_compute; reflexivity|].
  vm_compute. repeat split.
Qed.

End QDCBinary64.

(** ** [calculateQDC] in exact arithmetic: sorting and phase balancing *)

Section QDCExact.
Local Open Scope R_scope.








(** *** Sorting *)












End QDCExact.

(** ** [calculateSolar]: the panel count and a site without sun *)

Section SolarMore.



Local Open Scope js_scope.

(** X22.  A solar irradiation that [=== 0] is not rejected: in binary64, for
    a positive daily consumption, the system power returned is Infinity at +0
    and -Infinity at -0, and the monthly generation is NaN at both. *)
Theorem solar_zero_irradiation (input : SolarInput.t float) :
  (SolarInput.solarIrradiation input ===? ofQ 0) = true ->
  (SolarInput.monthlyConsumption input / ofQ 30 >? ofQ 0) = true ->
  (SolarInput.solarIrradiation input = zero
   /\ SolarResult.systemPower (calculateSolar input) = infinity
   \/ SolarInput.solarIrradiation input = neg_zero
      /\ SolarResult.systemPower (calculateSolar input) = neg_infinity)
  /\ SolarResult.monthlyGeneration (calculateSolar input) = nan.
Proof.
  destruct input as [m irr pp]. cbn [SolarInput.solarIrradiation SolarInput.monthlyConsumption].
  intros Hirr Hm. unfold calculateSolar.
  cbn [SolarResult.systemPower SolarResult.monthlyGeneration].
  change (ofQ 0 : float) with 0%float in *. cbn [nmul ndiv nltb binary64] in *.
  destruct (eqb_zero _ Hirr) as [-> | ->].
  - change zero with 0%float. rewrite (proj1 (div_zero _) Hm). split; [left; split|]; vm_compute; reflexivity.
  - change neg_zero with (-0)%float. rewrite (proj1 (div_neg_zero _) Hm). split; [right; split|]; vm_compute; reflexivity.
Qed.

Lemma solar_zero_irradiation_500 :
  (SolarResult.systemPower (calculateSolar solarNoSun) = infinity
   /\ SolarResult.monthlyGeneration (calculateSolar solarNoSun) = nan)
  /\ (SolarResult.systemPower (calculateSolar solarNoSun_negZero) = neg_infinity
      /\ SolarResult.monthlyGeneration (calculateSolar solarNoSun_negZero) = nan).
Proof.
  split.
  - destruct (solar_zero_irradiation solarNoSun) as ([[_ H]|[H _]] & Hg);
      try (vm_compute; reflexivity).
    + split; assumption.
    + exfalso. apply (f_equal Prim2SF) in H. vm_compute in H. discriminate H.
  - destruct (solar_zero_irradiation solarNoSun_negZero) as ([[H _]|[_ H]] & Hg);
      try (vm_compute; reflexivity).
    + exfalso. apply (f_equal Prim2SF) in H. vm_compute in H. discriminate H.
    + split; assumption.
Defined.

End SolarMore.

(** ** The fault current and the length, in exact arithmetic *)

Section ExactMore.
Local Open Scope R_scope.

Ltac real := unfold Q2R; cbn [Qnum Qden]; lra.




Lemma withLength_same {F} `{JSNumber F} (input : CalcInput.t F) (len : F) :
  (forall b, findCable (withLength input len) b = findCable input b)
  /\ limit (withLength input len) = limit input
  /\ CalcInput.breakerRating (withLength input len) = CalcInput.breakerRating input.
Proof. destruct input. repeat split; reflexivity. Qed.

End ExactMore.

(** ** A longer circuit (binary64) *)

Section Longer.
Local Open Scope js_scope.

Lemma SFltb_leb_trans (a b c : spec_float) :
  SFltb a b = true -> SFleb b c = true -> SFltb a c = true.
Proof.
  unfold SFleb, SFltb, SFcompare.
  destruct a as [sa|sa| |sa ma ea], b as [sb|sb| |sb mb eb], c as [sc|sc| |sc mc ec];
    try discriminate; try reflexivity;
    repeat match goal with s : bool |- _ => destruct s end;
    try discriminate; try reflexivity.
  all: rewrite ?Pos.compare_cont_spec by reflexivity; cbn [Pos.switch_Eq].
  all: fold (Pos.compare ma mb) (Pos.compare mb mc) (Pos.compare ma mc).
  all: destruct (Z.compare_spec ea eb), (Z.compare_spec eb ec), (Z.compare_spec ea ec);
    try discriminate; try reflexivity; try lia.
  all: destruct (Pos.compare_spec ma mb), (Pos.compare_spec mb mc), (Pos.compare_spec ma mc);
    cbn; try discriminate; try reflexivity; try lia.
Qed.

Lemma ltb_leb_trans (x y z : float) :
  (x <? y) = true -> (y <=? z) = true -> (x <? z) = true.
Proof. cbn [nleb nltb binary64]. rewrite leb_spec, !ltb_spec. apply SFltb_leb_trans. Qed.

(** X24.  For a supply of positive finite voltage and a design current that
    is positive and finite, a longer circuit never gets a smaller cable: for
    two inputs identical except that the second is longer, the section
    returned for the second is at or above that for the first. *)
Theorem longer_circuit_no_smaller_cable (input : CalcInput.t float) (length' : float) :
  (ofQ 0 <? CalcInput.voltage input) = true -> (CalcInput.voltage input <? infinity) = true ->
  (ofQ 0 <? Ib input) = true -> (Ib input <? infinity) = true ->
  (CalcInput.length input <=? length') = true ->
  exists r r' : CalcResult.t float,
    calculateElectrical input = Return r
    /\ calculateElectrical (withLength input length') = Return r'
    /\ (CalcResult.cableSection r <=? CalcResult.cableSection r') = true.
Proof.
  intros Hv0 Hv HI0 HI Hlen.
  assert (Hvolt : positiveFinite (CalcInput.voltage input) = true)
    by (unfold positiveFinite; now rewrite Hv0, Hv).
  assert (Hcur : positiveFinite (Ib input) = true)
    by (unfold positiveFinite; now rewrite HI0, HI).
  destruct (calculateElectrical_returns input)
    as (j & k & c0 & c & Hfit & Hfind & (Hjk & Hk & Hskip & Hend) & Hrun).
  destruct (calculateElectrical_returns (withLength input length'))
    as (j' & k' & c0' & c' & Hfit' & Hfind' & (Hjk' & Hk' & Hskip' & Hend') & Hrun').
  destruct (withLength_same input length') as (Hsame & Hlim & Hbr).
  eexists. eexists. split; [exact Hrun|]. split; [exact Hrun'|].
  destruct (sizeRest_fields input c (calculateVD input c) (getIz input c)) as (-> & _).
  destruct (sizeRest_fields (withLength input length') c'
              (calculateVD (withLength input length') c')
              (getIz (withLength input length') c')) as (-> & _).
  assert (Hj : j' = j).
  { rewrite Hbr, Hsame, Hfind in Hfind'. injection Hfind' as <-.
    pose proof (indexOf_nth _ _ (proj1 Hfit)) as H1.
    pose proof (indexOf_nth _ _ (proj1 Hfit')) as H2. lia. }
  subst j'.
  assert (Hkk : (k <= k')%nat).
  { destruct (Nat.le_gt_cases k k') as [|Hlt]; [assumption|exfalso].
    pose proof (Hskip k' c' ltac:(lia) Hk') as Hover.
    assert (Hin : In c' CABLE_TABLE) by (eapply nth_error_In; eassumption).
    destruct (calculateVD_monotone input length' c' Hvolt Hcur Hlen Hin) as [_ Hmono].
    rewrite Hlim in Hend'.
    destruct Hend' as [Hok|Hlast]; [|pose proof (nth_CABLE_TABLE_lt _ _ Hk); lia].
    rewrite (ltb_leb_trans _ _ _ Hover Hmono) in Hok. discriminate. }
  exact (sections_ascending k k' c c' Hkk Hk Hk').
Qed.

Lemma longer_circuit_scenarioA :
  exists r r' : CalcResult.t float,
    calculateElectrical scenarioA = Return r
    /\ calculateElectrical (withLength scenarioA (ofQ 60)) = Return r'
    /\ (CalcResult.cableSection r <=? CalcResult.cableSection r') = true.
Proof.
  apply (longer_circuit_no_smaller_cable scenarioA (ofQ 60)); vm_compute; reflexivity.
Defined.

End Longer.

(** ** Ratings in exact arithmetic: the relay, the status light, the budget *)

Section RatingsExact.
Local Open Scope R_scope.

Ltac real := unfold Q2R; cbn [Qnum Qden]; lra.

Lemma BREAKER_RATINGS_exact (r : R) :
  In r BREAKER_RATINGS -> 0 < r <= 125 /\ truthy (Num r) = true.
Proof.
  intros Hin. cbn in Hin.
  repeat (destruct Hin as [<-|Hin];
          [split; [real|];
           cbv [truthy neqb ofQ exact];
           rewrite Reqb_false by real; rewrite Reqb_true by reflexivity; reflexivity|]).
  destruct Hin.
Qed.

(** In exact arithmetic too the rounded value is a standard rating, and it is
    at or above the current whenever the current is at most 125. *)
Lemma roundUpToRating_exact (x : R) :
  In (roundUpToRating x) BREAKER_RATINGS /\ (x <= 125 -> x <= roundUpToRating x).
Proof.
  unfold roundUpToRating.
  pose proof (find_first (fun r : R => nleb x r) BREAKER_RATINGS) as Hf.
  destruct (find (fun r : R => nleb x r) BREAKER_RATINGS) as [b|].
  - destruct Hf as (j & Hj & Hb & _).
    assert (Hin : In b BREAKER_RATINGS) by (eapply nth_error_In; eassumption).
    destruct (BREAKER_RATINGS_exact b Hin) as [_ Ht].
    unfold js_or. rewrite Ht. cbn [toNumber]. split; [exact Hin|]. intros _.
    cbn [nleb exact] in Hb. unfold Rleb in Hb. destruct (Rle_dec x b); [assumption|discriminate].
  - unfold js_or. cbn [truthy toNumber]. split.
    + simpl. do 13 right. left. reflexivity.
    + intros Hx. exfalso.
      assert (Hlast : nleb x (ofQ 125) = false).
      { apply Hf. simpl. do 13 right. left. reflexivity. }
      cbn [nleb ofQ exact] in Hlast. rewrite Rleb_true in Hlast; [discriminate|real].
Qed.

(** X25.  In exact arithmetic, for a motor of non-negative nominal current
    whose 1.25 multiple is within the largest rating, the thermal relay
    setting (1.1 times the nominal current) never exceeds the breaker. *)
Theorem relay_within_breaker (input : MotorCalcInput.t R) :
  let r := calculateMotor input in
  0 <= MotorCalcResult.nominalCurrent r ->
  MotorCalcResult.nominalCurrent r * 1.25 <= 125 ->
  MotorCalcResult.relay r <= MotorCalcResult.breaker r.
Proof.
  destruct input as [cv v eff pf sm]. cbv zeta. unfold calculateMotor.
  cbn [MotorCalcResult.nominalCurrent MotorCalcResult.relay MotorCalcResult.breaker].
  set (I := ndiv _ _). clearbody I. cbn [nmul ofQ exact]. intros HI Hfit.
  destruct (roundUpToRating_exact (I * Q2R 1.25)) as [_ Hge].
  set (b := roundUpToRating (I * Q2R 1.25)) in *. clearbody b.
  assert (Hb : I * Q2R 1.25 <= b) by (apply Hge; revert Hfit; real).
  revert Hb HI. real.
Qed.

Lemma relay_within_breaker_scenarioB :
  MotorCalcResult.relay (calculateMotor scenarioB_exact)
  <= MotorCalcResult.breaker (calculateMotor scenarioB_exact).
Proof.
  assert (H3 : 1 <= R_sqrt.sqrt (Q2R 3)).
  { rewrite <- sqrt_1 at 1. apply sqrt_le_1_alt. real. }
  assert (Hbounds : 0 <= MotorCalcResult.nominalCurrent (calculateMotor scenarioB_exact) <= 100).
  { cbn. set (s := R_sqrt.sqrt (Q2R 3)) in *. clearbody s.
    assert (Hden : 258.4 <= s * Q2R 380 * (Q2R 85 / Q2R 100) * Q2R 0.8).
    { replace (s * Q2R 380 * (Q2R 85 / Q2R 100) * Q2R 0.8) with (s * 258.4) by real. lra. }
    set (den := s * Q2R 380 * (Q2R 85 / Q2R 100) * Q2R 0.8) in *. clearbody den.
    assert (Hnum : Q2R 5 * Q2R 735.5 = 3677.5) by real. rewrite Hnum.
    assert (Hinv : 0 < / den <= / 258.4).
    { split; [apply Rinv_0_lt_compat; lra|apply Rinv_le_contravar; lra]. }
    unfold Rdiv. split; [apply Rmult_le_pos; lra|].
    apply Rle_trans with (3677.5 * / 258.4); [apply Rmult_le_compat_l; lra|lra]. }
  apply (relay_within_breaker scenarioB_exact); cbv zeta; lra.
Defined.

(** X26.  In exact arithmetic the status light of the panel form is never
    green for a circuit above 100 A: its load ratio against the suggested
    breaker, at most 125 A, is above 0.8. *)
Theorem isSafe_never_above_100 (c : Circuit.t R) :
  100 < Circuit.current c -> isSafe c = false.
Proof.
  intros Hc. unfold isSafe.
  destruct (roundUpToRating_exact (Circuit.current c)) as [Hin _].
  destruct (BREAKER_RATINGS_exact _ Hin) as [[Hpos Htop] _].
  set (sb := roundUpToRating (Circuit.current c)) in *. clearbody sb.
  cbn [nleb ndiv ofQ exact]. apply Rleb_false.
  apply Rmult_lt_reg_r with sb; [exact Hpos|].
  unfold Rdiv. rewrite Rmult_assoc, Rinv_l by lra. revert Hc Htop Hpos. real.
Qed.

Lemma isSafe_circuit110 : isSafe circuit110 = false.
Proof. apply (isSafe_never_above_100 circuit110). cbn. real. Defined.




End RatingsExact.
